(** * The news collection engine of health-trend-report-v2 (collect_news.py, main.py)

    A shallow embedding of the retrieval-and-normalisation engine: the retrying
    fetch primitive [_get], the feed collector [collect_google_news], the page
    collector [collect_naver_news] with its dual-layout parser
    [_parse_naver_page], and the public entry point [collect_all_news] with its
    title-keyed deduplication, followed by the properties of the engine.
    The keyword extraction of extract_keywords.py ([extract_nouns],
    [extract_top_keywords]) is embedded after the collectors, over a
    [KeywordRuntime] that stands for the Kiwi analyser and the constants of
    config.py and stopwords.py.

    Python values are modelled as follows.
    - [str] is a list of Unicode code points ([pystr]); [len] is [length].
    - [int] is [Z]; [range(a, b)] is stdpp's [seqZ a (b - a)].
    - A [dict] with a fixed key set (an article) is a record; the [set] of seen
      keys is a [gset pystr].
    - The network, the feed parser, the random generator and the clock are
      oracles of a [World], read in call order; sleeping, fetching and logging
      append to a chronological trace.
    - Exceptions are explicit: a computation returns [Ret v] or [Raise e]. *)

From Stdlib Require Import ZArith QArith List String Ascii DecimalString Lia.
From stdpp Require Import base gmap list sorting.

#[local] Set Warnings "-register-all,-clear-no-such-hyp".

Local Open Scope Z_scope.

(* ================================================================= *)
(** ** Python strings *)

Abbreviation pystr := (list N).

(** An ASCII literal as a Python string. *)
Definition lit (s : string) : pystr :=
  List.map N_of_ascii (list_ascii_of_string s).

(** [str.isspace] on one code point: the characters [str.strip] removes. *)
Definition isspace (c : N) : bool :=
  ((9 <=? c) && (c <=? 13) || (28 <=? c) && (c <=? 32)
   || (c =? 133) || (c =? 160) || (c =? 5760)
   || (8192 <=? c) && (c <=? 8202)
   || (c =? 8232) || (c =? 8233) || (c =? 8239) || (c =? 8287)
   || (c =? 12288))%N.

Fixpoint lstrip (s : pystr) : pystr :=
  match s with
  | [] => []
  | c :: s' => if isspace c then lstrip s' else s
  end.

Definition rstrip (s : pystr) : pystr := rev (lstrip (rev s)).

(** [s.strip()] *)
Definition strip (s : pystr) : pystr := rstrip (lstrip s).

(** [s.startswith(p)] *)
Fixpoint startswith (p s : pystr) : bool :=
  match p, s with
  | [], _ => true
  | _ :: _, [] => false
  | a :: p', b :: s' => (a =? b)%N && startswith p' s'
  end.

(** [sub in s] *)
Fixpoint contains (sub s : pystr) : bool :=
  startswith sub s ||
  match s with
  | [] => false
  | _ :: s' => contains sub s'
  end.

(** [s.rfind(sub)], counted from offset [i] of the original string: the
    highest index at which [sub] starts. *)
Fixpoint rfind_from (sub s : pystr) (i : nat) : option nat :=
  match s with
  | [] => if startswith sub [] then Some i else None
  | _ :: s' =>
      match rfind_from sub s' (S i) with
      | Some j => Some j
      | None => if startswith sub s then Some i else None
      end
  end.

Definition rfind (sub s : pystr) : option nat := rfind_from sub s 0.

(** [s.rsplit(sep, 1)]: split once, at the last occurrence of [sep]. *)
Definition rsplit1 (sep s : pystr) : list pystr :=
  match rfind sep s with
  | Some i => [take i s; drop (i + length sep) s]
  | None => [s]
  end.

(** [sep.join(parts)] *)
Fixpoint join (sep : pystr) (parts : list pystr) : pystr :=
  match parts with
  | [] => []
  | [p] => p
  | p :: rest => p ++ sep ++ join sep rest
  end.

(** [len(s)] *)
Definition len {A} (l : list A) : Z := Z.of_nat (length l).

(** [range(a, b)] *)
Definition range (a b : Z) : list Z := seqZ a (b - a).

(** String constants of the module. *)
Definition SEP : pystr := lit " - ".
Definition s_naver : pystr := lit "naver".
Definition s_google : pystr := lit "google".
Definition s_a : pystr := lit "a".
Definition s_href : pystr := lit "href".
Definition s_articleView : pystr := lit "articleView".
Definition s_n_news : pystr := lit "n.news.naver.com".

(** The relative-time phrases of [_time_keywords]:
    "분 전", "시간 전", "일 전", "어제", "방금". *)
Definition _time_keywords : list pystr :=
  [ [48516; 32; 51204]; [49884; 44036; 32; 51204]; [51068; 32; 51204];
    [50612; 51228]; [48169; 44552] ]%N.

(** [_UI_TITLES]: "네이버뉴스", "Keep에 저장", "뉴스" and the empty string. *)
Definition _UI_TITLES : gset pystr :=
  {[ [45348; 51060; 48260; 45684; 49828]%N;
     [75; 101; 101; 112; 50640; 32; 51200; 51109]%N;
     [45684; 49828]%N;
     [] ]}.

(* ================================================================= *)
(** ** The document tree of BeautifulSoup *)

(** A parsed document: text nodes and tags.  The multi-valued [class]
    attribute is kept as the list bs4 stores; the other attributes are the
    tag's attribute dictionary. *)
Inductive Node : Type :=
| NavigableString (s : pystr)
| Tag (name : pystr) (classes : list pystr) (attrs : list (pystr * pystr))
      (contents : list Node).

(** [tag.descendants], in document order, each with its chain of ancestors
    (nearest first), which the selector combinators inspect. *)
Fixpoint descendants_in (anc : list Node) (n : Node) : list (list Node * Node) :=
  match n with
  | NavigableString _ => []
  | Tag _ _ _ cs =>
      (fix each (l : list Node) : list (list Node * Node) :=
         match l with
         | [] => []
         | c :: l' => (n :: anc, c) :: descendants_in (n :: anc) c ++ each l'
         end) cs
  end.

Definition pystr_eqb (a b : pystr) : bool := bool_decide (a = b).

(** [tag.get(key, default)] *)
Fixpoint dict_get (key : pystr) (d : list (pystr * pystr)) : option pystr :=
  match d with
  | [] => None
  | (k, v) :: d' => if pystr_eqb k key then Some v else dict_get key d'
  end.

Definition tag_get (n : Node) (key dflt : pystr) : pystr :=
  match n with
  | Tag _ _ attrs _ => default dflt (dict_get key attrs)
  | NavigableString _ => dflt
  end.

(** [tag.has_attr(key)] *)
Definition has_attr (n : Node) (key : pystr) : bool :=
  match n with
  | Tag _ _ attrs _ => bool_decide (is_Some (dict_get key attrs))
  | NavigableString _ => false
  end.

(** A compound selector [tag.c1.c2...] on one node ([tag] may be absent). *)
Definition simple_matches (tag : option pystr) (cls : list pystr) (n : Node) : bool :=
  match n with
  | NavigableString _ => false
  | Tag name classes _ _ =>
      match tag with Some t => pystr_eqb name t | None => true end
      && forallb (fun c => bool_decide (c ∈ classes)) cls
  end.

(** The CSS selectors the parser uses: a compound selector, optionally under
    a child ([p > c]) or descendant ([p c]) combinator. *)
Inductive Selector : Type :=
| Simple (tag : option pystr) (cls : list pystr)
| Child (parent : Selector) (tag : option pystr) (cls : list pystr)
| Descendant (ancestor : Selector) (tag : option pystr) (cls : list pystr).

Fixpoint sel_matches (sel : Selector) (anc : list Node) (n : Node) : bool :=
  match sel with
  | Simple t c => simple_matches t c n
  | Child p t c =>
      simple_matches t c n &&
      match anc with
      | a :: anc' => sel_matches p anc' a
      | [] => false
      end
  | Descendant p t c =>
      simple_matches t c n &&
      (fix up (l : list Node) : bool :=
         match l with
         | a :: l' => sel_matches p l' a || up l'
         | [] => false
         end) anc
  end.

(** A tag together with its ancestors in the document. *)
Abbreviation Located := (list Node * Node)%type.

(** [tag.select(sel)]: the matching descendants, in document order. *)
Definition select (sel : Selector) (t : Located) : list Located :=
  List.filter (fun d => sel_matches sel d.1 d.2) (descendants_in t.1 t.2).

(** [tag.select_one(sel)] *)
Definition select_one (sel : Selector) (t : Located) : option Located :=
  head (select sel t).

(** [tag.find_all("a", href=True)] *)
Definition find_all_a_href (t : Located) : list Located :=
  List.filter (fun d => simple_matches (Some s_a) [] d.2 && has_attr d.2 s_href)
              (descendants_in t.1 t.2).

(** [tag._all_strings(strip=True)]: the text nodes below the tag, each
    stripped, the ones that become empty left out. *)
Definition all_strings_strip (n : Node) : list pystr :=
  omap (fun d => match d.2 with
                 | NavigableString s =>
                     if bool_decide (strip s = []) then None else Some (strip s)
                 | Tag _ _ _ _ => None
                 end)
       (descendants_in [] n).

(** [tag.get_text(sep, strip=True)] *)
Definition get_text (sep : pystr) (n : Node) : pystr :=
  join sep (all_strings_strip n).

(** The selectors of [_parse_naver_page]. *)
Definition sel_card : Selector :=
  Simple (Some (lit "div")) [lit "YWTMk0ahJUsxq4uCx9gX"].
Definition sel_subtext : Selector :=
  Simple (Some (lit "span")) [lit "sds-comps-profile-info-subtext"].
Definition sel_li_bx : Selector :=
  Child (Simple (Some (lit "ul")) [lit "list_news"]) (Some (lit "li")) [lit "bx"].
Definition sel_news_wrap : Selector :=
  Simple (Some (lit "div")) [lit "news_wrap"].
Definition sel_news_tit : Selector :=
  Simple (Some (lit "a")) [lit "news_tit"].
Definition sel_dsc_a : Selector :=
  Simple (Some (lit "a")) [lit "api_txt_lines"; lit "dsc_txt_wrap"].
Definition sel_dsc_wrap : Selector := Simple None [lit "dsc_txt_wrap"].
Definition sel_dsc : Selector := Simple None [lit "dsc_txt"].
Definition sel_info : Selector := Simple (Some (lit "span")) [lit "info"].
Definition sel_group_info : Selector :=
  Descendant (Simple None [lit "info_group"]) (Some (lit "span")) [lit "info"].

(* ================================================================= *)
(** ** Records, configuration and the outside world *)

(** The article dictionary built by both collectors. *)
Record Article : Type := mkArticle {
  date : pystr;
  source : pystr;
  query : pystr;
  title : pystr;
  description : pystr;
  link : pystr;
  published : pystr
}.

(** A feed entry, read only through [entry.get(key, default)]. *)
Record Entry : Type := mkEntry {
  entry_title : option pystr;
  entry_summary : option pystr;
  entry_published : option pystr;
  entry_link : option pystr
}.

(** [requests.Response]: the fields the module reads. *)
Record Response : Type := mkResponse {
  status_code : Z;
  text : pystr
}.

(** Exceptions by the classes the handlers tell apart:
    [requests.RequestException] (with its subclasses), the other subclasses of
    [Exception], and the [BaseException]s outside [Exception]. *)
Inductive exn : Type :=
| HTTPError
| ConnectionError
| ReadTimeout
| OtherException
| KeyboardInterrupt
| SystemExit (code : Z).

Definition is_RequestException (e : exn) : bool :=
  match e with
  | HTTPError | ConnectionError | ReadTimeout => true
  | _ => false
  end.

Definition is_Exception (e : exn) : bool :=
  match e with
  | KeyboardInterrupt | SystemExit _ => false
  | _ => true
  end.

Inductive Level : Type := DEBUG | INFO | WARNING | ERROR.

(** One constructor per logging call of the two modules. *)
Inductive LogMsg : Type :=
| GetFailed (attempt max_retries : Z) (url : pystr) (e : exn)
| GoogleQuery (query : pystr)
| GoogleFeedError (query : pystr) (e : exn)
| GoogleCollected (query : pystr) (count : Z)
| NaverQuery (query : pystr)
| NaverNoResponse (query : pystr) (page : Z)
| NaverNoResult (query : pystr) (page : Z)
| NaverCollected (query : pystr) (count : Z)
| CollectStart
| CollectDone (n_naver n_google n_deduped : Z)
| MainNoArticles.

(** What the run does to the outside, in order. *)
Inductive Event : Type :=
| EvGet (url : pystr)
| EvFeedParse (url : pystr)
| EvSleep (seconds : Q)
| EvLog (level : Level) (msg : LogMsg).

Inductive HttpReply : Type :=
| Replies (r : Response)
| HttpRaises (e : exn).

Inductive FeedReply : Type :=
| Feed (entries : list Entry)
| FeedRaises (e : exn).

(** The environment of a run: the outcome of the k-th [requests.get], of the
    k-th [feedparser.parse], the value the k-th call of [random.uniform]
    returns, and the k-th reading of the clock as a date string. *)
Record World : Type := mkWorld {
  http : nat -> HttpReply;
  feeds : nat -> FeedReply;
  random : nat -> Q;
  clock : nat -> pystr
}.

Record St : Type := mkSt {
  world : World;
  n_http : nat;
  n_feed : nat;
  n_random : nat;
  n_clock : nat;
  trace : list Event
}.

(** config.py is not part of the sources at hand: its constants are the
    fields of [Runtime], with the library functions whose code lives outside
    the repository. *)
Class Runtime : Type := mkRuntime {
  REQUEST_DELAY : Q * Q;
  MAX_RETRIES : Z;
  MAX_ARTICLES_PER_QUERY : Z;
  MAX_PAGES_PER_QUERY : Z;
  HEALTH_QUERIES : list pystr;
  (** [NAVER_NEWS_URL.format(query=q, start=n)] *)
  NAVER_NEWS_URL : pystr -> Z -> pystr;
  (** [GOOGLE_NEWS_RSS_URL.format(query=q)] *)
  GOOGLE_NEWS_RSS_URL : pystr -> pystr;
  (** [requests.utils.quote] *)
  quote : pystr -> pystr;
  (** [BeautifulSoup(markup, "lxml")] *)
  BeautifulSoup : pystr -> Node;
  (** The lower-casing of the code point at index [i] of [s] ([str.lower]
      maps each code point, in its context, to one or more code points). *)
  lower_ucs4 : pystr -> nat -> N -> pystr
}.

(* ================================================================= *)
(** ** Computations: state, trace and exceptions *)

Inductive Res (A : Type) : Type :=
| Ret (a : A)
| Raise (e : exn).
Arguments Ret {A} a.
Arguments Raise {A} e.

Definition M (A : Type) : Type := St -> Res A * St.

Definition ret {A} (a : A) : M A := fun st => (Ret a, st).

Definition raise {A} (e : exn) : M A := fun st => (Raise e, st).

Definition bind {A B} (m : M A) (k : A -> M B) : M B :=
  fun st =>
    match m st with
    | (Ret a, st') => k a st'
    | (Raise e, st') => (Raise e, st')
    end.

Declare Scope py_scope.
Delimit Scope py_scope with py.
Notation "'let!' x ':=' m 'in' k" := (bind m (fun x => k))
  (at level 10, x pattern, m at level 100, k at level 200) : py_scope.
Notation "m '>>' k" := (bind m (fun _ => k))
  (at level 90, right associativity) : py_scope.
Local Open Scope py_scope.

(** [try: body except E as e: handler(e)], [handles] deciding [isinstance(e, E)]. *)
Definition try_except {A} (body : M A) (handles : exn -> bool)
    (handler : exn -> M A) : M A :=
  fun st =>
    match body st with
    | (Ret a, st') => (Ret a, st')
    | (Raise e, st') => if handles e then handler e st' else (Raise e, st')
    end.

Definition emit (ev : Event) : M unit :=
  fun st =>
    (Ret tt, mkSt (world st) (n_http st) (n_feed st) (n_random st) (n_clock st)
                  (trace st ++ [ev])).

(** [logger.debug/info/warning/error] *)
Definition log (lvl : Level) (msg : LogMsg) : M unit := emit (EvLog lvl msg).

(** [time.sleep(seconds)] *)
Definition time_sleep (seconds : Q) : M unit := emit (EvSleep seconds).

(** [random.uniform(a, b)]: the library computes its value in floating
    point from a draw of the generator.  The value is read from the world,
    like the replies of the providers; a float is a rational number. *)
Definition random_uniform (a b : Q) : M Q :=
  fun st =>
    (Ret (random (world st) (n_random st)),
     mkSt (world st) (n_http st) (n_feed st) (S (n_random st)) (n_clock st)
          (trace st)).

(** [datetime.now().strftime("%Y-%m-%d")] *)
Definition datetime_now_strftime : M pystr :=
  fun st =>
    (Ret (clock (world st) (n_clock st)),
     mkSt (world st) (n_http st) (n_feed st) (n_random st) (S (n_clock st))
          (trace st)).

(** [requests.get(url, headers=_HEADERS, timeout=REQUEST_TIMEOUT)] *)
Definition requests_get (url : pystr) : M Response :=
  fun st =>
    let st' := mkSt (world st) (S (n_http st)) (n_feed st) (n_random st)
                    (n_clock st) (trace st ++ [EvGet url]) in
    match http (world st) (n_http st) with
    | Replies r => (Ret r, st')
    | HttpRaises e => (Raise e, st')
    end.

(** [resp.raise_for_status()]: an [HTTPError] on a 4xx or 5xx status. *)
Definition raise_for_status (resp : Response) : M unit :=
  if (400 <=? status_code resp) && (status_code resp <? 600)
  then raise HTTPError else ret tt.

(** [feedparser.parse(url)] *)
Definition feedparser_parse (url : pystr) : M (list Entry) :=
  fun st =>
    let st' := mkSt (world st) (n_http st) (S (n_feed st)) (n_random st)
                    (n_clock st) (trace st ++ [EvFeedParse url]) in
    match feeds (world st) (n_feed st) with
    | Feed es => (Ret es, st')
    | FeedRaises e => (Raise e, st')
    end.

(* ================================================================= *)
(** ** collect_news.py *)

Section CollectNews.
Context {R : Runtime}.

(** [s.lower()] *)
Definition lower (s : pystr) : pystr :=
  concat (imap (fun i c => lower_ucs4 s i c) s).

(** [_sleep]: the random delay between requests. *)
Definition _sleep : M unit :=
  let! d := random_uniform (REQUEST_DELAY.1) (REQUEST_DELAY.2) in
  time_sleep d.

(** The body of the loop of [_get] for the attempts still to come:
    [Some resp] is the [return resp] of the [try] block, [None] falls through
    to the next attempt. *)
Fixpoint _get_attempts (url : pystr) (attempts : list Z) : M (option Response) :=
  match attempts with
  | [] => ret None
  | attempt :: rest =>
      let! r :=
        try_except
          (let! resp := requests_get url in
           raise_for_status resp >>
           ret (Some resp))
          is_RequestException
          (fun e =>
             log WARNING (GetFailed attempt MAX_RETRIES url e) >>
             (if attempt <? MAX_RETRIES
              then time_sleep (inject_Z (2 ^ attempt))
              else ret tt) >>
             ret None) in
      match r with
      | Some resp => ret (Some resp)
      | None => _get_attempts url rest
      end
  end.

Definition _get (url : pystr) : M (option Response) :=
  _get_attempts url (range 1 (MAX_RETRIES + 1)).

(** Line 87: the publisher suffix is cut off the (stripped) raw title. *)
Definition clean_title (raw_title : pystr) : pystr :=
  if contains SEP raw_title
  then default [] (head (rsplit1 SEP raw_title))
  else raw_title.

(** The article built from one feed entry (lines 85-103). *)
Definition google_article (today query : pystr) (entry : Entry) : Article :=
  let raw_title := strip (default [] (entry_title entry)) in
  let title := clean_title raw_title in
  let raw_desc := default [] (entry_summary entry) in
  let desc := get_text (lit " ") (BeautifulSoup raw_desc) in
  let published := default today (entry_published entry) in
  {| date := today;
     source := s_google;
     query := query;
     title := title;
     description := desc;
     link := default [] (entry_link entry);
     published := published |}.

(** The loop over [feed.entries], with its running [count]. *)
Fixpoint google_entries (today query : pystr) (entries : list Entry)
    (count : Z) (articles : list Article) : list Article * Z :=
  match entries with
  | [] => (articles, count)
  | entry :: rest =>
      if count >=? MAX_ARTICLES_PER_QUERY then (articles, count)
      else google_entries today query rest (count + 1)
             (articles ++ [google_article today query entry])
  end.

(** The loop over the queries of [collect_google_news]. *)
Fixpoint google_queries (today : pystr) (queries : list pystr)
    (articles : list Article) : M (list Article) :=
  match queries with
  | [] => ret articles
  | query :: rest =>
      let url := GOOGLE_NEWS_RSS_URL (quote query) in
      log INFO (GoogleQuery query) >>
      let! feed :=
        try_except
          (let! f := feedparser_parse url in ret (Some f))
          is_Exception
          (fun e =>
             log ERROR (GoogleFeedError query e) >>
             _sleep >>
             ret None) in
      match feed with
      | None => google_queries today rest articles
      | Some entries =>
          let '(articles', count) :=
            google_entries today query entries 0 articles in
          log INFO (GoogleCollected query count) >>
          _sleep >>
          google_queries today rest articles'
      end
  end.

Definition collect_google_news (queries : list pystr) : M (list Article) :=
  let! today := datetime_now_strftime in
  google_queries today queries [].

(** *** The dual-layout parser *)

Definition is_article_link (a : Located) : bool :=
  contains s_articleView (tag_get a.2 s_href [])
  || contains s_n_news (tag_get a.2 s_href []).

(** The first label whose text holds a relative-time phrase, else [today]. *)
Fixpoint card_published (today : pystr) (spans : list Located) : pystr :=
  match spans with
  | [] => today
  | span :: rest =>
      let txt := get_text [] span.2 in
      if existsb (fun k => contains k txt) _time_keywords then txt
      else card_published today rest
  end.

(** One container of the current layout: its item, or nothing when the
    container is skipped ([continue]). *)
Definition parse_card (query today : pystr) (card : Located) : option Article :=
  let article_links := List.filter is_article_link (find_all_a_href card) in
  match article_links with
  | [] => None
  | title_tag :: more =>
      let title := get_text [] title_tag.2 in
      let link := tag_get title_tag.2 s_href [] in
      let desc := match more with
                  | second :: _ => get_text [] second.2
                  | [] => []
                  end in
      let published := card_published today (select sel_subtext card) in
      if (len title <? 5) || bool_decide (title ∈ _UI_TITLES) then None
      else if bool_decide (title ≠ []) then
        Some {| date := today;
                source := s_naver;
                query := query;
                title := title;
                description := desc;
                link := link;
                published := published |}
      else None
  end.

(** [a or b] on the results of [select_one]: a tag is always true. *)
Definition or_else {A} (a b : option A) : option A :=
  match a with Some _ => a | None => b end.

(** One item of the legacy layout. *)
Definition parse_legacy_item (query today : pystr) (li : Located) : option Article :=
  match select_one sel_news_tit li with
  | None => None
  | Some title_tag =>
      let title := get_text [] title_tag.2 in
      let link := tag_get title_tag.2 s_href [] in
      let desc_tag :=
        or_else (select_one sel_dsc_a li)
          (or_else (select_one sel_dsc_wrap li) (select_one sel_dsc li)) in
      let desc := match desc_tag with
                  | Some t => get_text [] t.2
                  | None => []
                  end in
      let date_tag :=
        or_else (select_one sel_info li) (select_one sel_group_info li) in
      let published := match date_tag with
                       | Some t => get_text [] t.2
                       | None => today
                       end in
      Some {| date := today;
              source := s_naver;
              query := query;
              title := title;
              description := desc;
              link := link;
              published := published |}
  end.

(** The containers of the legacy layout: [select(..) or select(..)]. *)
Definition legacy_containers (soup : Located) : list Located :=
  match select sel_li_bx soup with
  | [] => select sel_news_wrap soup
  | l => l
  end.

(** [_parse_naver_page] on the parsed document. *)
Definition parse_naver_soup (soup : Node) (query today : pystr) : list Article :=
  let root : Located := ([], soup) in
  let news_list := select sel_card root in
  match news_list with
  | _ :: _ => omap (parse_card query today) news_list
  | [] => omap (parse_legacy_item query today) (legacy_containers root)
  end.

Definition _parse_naver_page (html query today : pystr) : list Article :=
  parse_naver_soup (BeautifulSoup html) query today.

(** *** The page collector *)

Inductive Ctl : Type := Continue | Break.

(** One turn of the loop over pages: what becomes of [articles] and [count],
    and whether the loop goes on. *)
Definition naver_page (query today : pystr) (page : Z)
    (acc : list Article * Z) : M (Ctl * (list Article * Z)) :=
  let '(articles, count) := acc in
  let start := page * 10 + 1 in
  let url := NAVER_NEWS_URL (quote query) start in
  let! resp := _get url in
  match resp with
  | None =>
      log WARNING (NaverNoResponse query (page + 1)) >>
      ret (Break, (articles, count))
  | Some resp =>
      let items := _parse_naver_page (text resp) query today in
      match items with
      | [] =>
          log DEBUG (NaverNoResult query (page + 1)) >>
          ret (Break, (articles, count))
      | _ :: _ =>
          let articles := articles ++ items in
          let count := count + len items in
          if count >=? MAX_ARTICLES_PER_QUERY
          then ret (Break, (articles, count))
          else _sleep >> ret (Continue, (articles, count))
      end
  end.

(** [for page in range(MAX_PAGES_PER_QUERY)] *)
Fixpoint naver_pages (query today : pystr) (pages : list Z)
    (acc : list Article * Z) : M (list Article * Z) :=
  match pages with
  | [] => ret acc
  | page :: rest =>
      let! r := naver_page query today page acc in
      match r with
      | (Break, acc') => ret acc'
      | (Continue, acc') => naver_pages query today rest acc'
      end
  end.

(** The body of [for query in queries]. *)
Definition naver_query (today query : pystr) (articles : list Article)
    : M (list Article * Z) :=
  log INFO (NaverQuery query) >>
  let! r := naver_pages query today (range 0 MAX_PAGES_PER_QUERY)
              (articles, 0) in
  log INFO (NaverCollected query r.2) >>
  _sleep >>
  ret r.

Fixpoint naver_queries (today : pystr) (queries : list pystr)
    (articles : list Article) : M (list Article) :=
  match queries with
  | [] => ret articles
  | query :: rest =>
      let! r := naver_query today query articles in
      naver_queries today rest r.1
  end.

Definition collect_naver_news (queries : list pystr) : M (list Article) :=
  let! today := datetime_now_strftime in
  naver_queries today queries [].

(** *** The public interface *)

(** [article["title"].strip().lower()] *)
Definition dedup_key (article : Article) : pystr :=
  lower (strip (title article)).

(** The deduplication loop, with its [seen] set and [deduped] list. *)
Fixpoint dedup_loop (all_raw : list Article) (seen : gset pystr)
    (deduped : list Article) : list Article :=
  match all_raw with
  | [] => deduped
  | article :: rest =>
      let key := dedup_key article in
      if bool_decide (key ≠ []) && bool_decide (key ∉ seen)
      then dedup_loop rest ({[key]} ∪ seen) (deduped ++ [article])
      else dedup_loop rest seen deduped
  end.

Definition dedup (all_raw : list Article) : list Article :=
  dedup_loop all_raw ∅ [].

(** The deduplication as the specification words it: the record at index [i]
    of the concatenation is kept when its key is not empty and no record
    before it has the same key; the kept records stay in their order. *)
Definition kept_at (all_raw : list Article) (i : nat) (a : Article) : bool :=
  bool_decide (dedup_key a ≠ [])
  && forallb (fun b => bool_decide (dedup_key b ≠ dedup_key a)) (take i all_raw).

Definition first_occurrences (all_raw : list Article) : list Article :=
  (List.filter (fun p => kept_at all_raw p.1 p.2) (imap pair all_raw)).*2.

Definition collect_all_news (queries : list pystr) : M (list Article) :=
  log INFO CollectStart >>
  let! naver := collect_naver_news queries in
  let! google := collect_google_news queries in
  let all_raw := naver ++ google in
  let deduped := dedup all_raw in
  log INFO (CollectDone (len naver) (len google) (len deduped)) >>
  ret deduped.

(** main.py, lines 145-148: the collection step of [main].  An empty result
    ends the process with [sys.exit(1)]; otherwise the articles go on to
    keyword extraction and storage. *)
Definition main_collect : M (list Article) :=
  let! articles := collect_all_news HEALTH_QUERIES in
  match articles with
  | [] => log ERROR MainNoArticles >> raise (SystemExit 1)
  | _ :: _ => ret articles
  end.

End CollectNews.

(* ================================================================= *)
(** ** extract_keywords.py *)

(** A token of the Kiwi analyser: the fields the module reads. *)
Record Token : Type := mkToken {
  form : pystr;
  tag : pystr
}.

(** The log records of the module: the warning of [extract_nouns] and the
    summary of [extract_top_keywords]. *)
Inductive KwLog : Type :=
| KiwiError (e : exn)
| ExtractDone (n_counter n_filtered n_returned : Z).

(** The constants the module takes from config.py and stopwords.py, which
    are not part of the sources at hand, with the analyser and the character
    classes of the interpreter. *)
Class KeywordRuntime : Type := mkKeywordRuntime {
  TOP_N : Z;
  MIN_FREQ : Z;
  MIN_KEYWORD_LEN : Z;
  STOPWORDS : gset pystr;
  (** [_kiwi.tokenize(text)]: the tokens, or the exception it raises. *)
  kiwi_tokenize : pystr -> Res (list Token);
  (** The code points [str.isdigit] and [str.isalpha] accept. *)
  char_isdigit : N -> bool;
  char_isalpha : N -> bool
}.

(** [_TARGET_TAGS]: common and proper nouns. *)
Definition _TARGET_TAGS : gset pystr := {[ lit "NNG"; lit "NNP" ]}.

Section ExtractKeywords.
Context {K : KeywordRuntime}.

(** [s.isdigit()] and [s.isalpha()]: every character is one, and there is at
    least one character. *)
Definition isdigit (s : pystr) : bool :=
  bool_decide (s ≠ []) && forallb char_isdigit s.

Definition isalpha (s : pystr) : bool :=
  bool_decide (s ≠ []) && forallb char_isalpha s.

Definition _is_valid_token (form tag : pystr) : bool :=
  if bool_decide (tag ∉ _TARGET_TAGS) then false
  else if len form <? MIN_KEYWORD_LEN then false
  else if bool_decide (form ∈ STOPWORDS) then false
  else if isdigit form then false
  else if (len form =? 1) && isalpha form then false
  else true.

(** A computation of the module: its result and what it logged. *)
Definition Logged (A : Type) : Type := Res A * list KwLog.

Definition extract_nouns (text : pystr) : Logged (list pystr) :=
  if bool_decide (text = []) then (Ret [], [])
  else
    match kiwi_tokenize text with
    | Ret tokens =>
        (Ret (form <$> List.filter (fun t => _is_valid_token (form t) (tag t))
                                   tokens), [])
    | Raise e =>
        if is_Exception e then (Ret [], [KiwiError e]) else (Raise e, [])
    end.

(** The loop over the articles, which extends [all_nouns]. *)
Fixpoint gather_nouns (articles : list Article) (all_nouns : list pystr)
    : Logged (list pystr) :=
  match articles with
  | [] => (Ret all_nouns, [])
  | article :: rest =>
      let combined := join (lit " ") [title article; description article] in
      match extract_nouns combined with
      | (Ret nouns, logs) =>
          let '(r, logs') := gather_nouns rest (all_nouns ++ nouns) in
          (r, logs ++ logs')
      | (Raise e, logs) => (Raise e, logs)
      end
  end.

(** [Counter]: the counts of the elements, in the order in which the elements
    first occur. *)
Fixpoint counter_add (counter : list (pystr * Z)) (x : pystr)
    : list (pystr * Z) :=
  match counter with
  | [] => [(x, 1)]
  | (k, n) :: counter' =>
      if bool_decide (k = x) then (k, n + 1) :: counter'
      else (k, n) :: counter_add counter' x
  end.

Definition Counter (l : list pystr) : list (pystr * Z) :=
  foldl counter_add [] l.

(** [sorted(items, key=itemgetter(1), reverse=True)]: by count, the greater
    first; the sort is stable, so items of equal count keep their order. *)
Fixpoint insert_by_count (x : pystr * Z) (l : list (pystr * Z))
    : list (pystr * Z) :=
  match l with
  | [] => [x]
  | y :: l' => if x.2 <? y.2 then y :: insert_by_count x l' else x :: l
  end.

(** [counter.most_common()] *)
Definition most_common (counter : list (pystr * Z)) : list (pystr * Z) :=
  foldr insert_by_count [] counter.

(** [l[:n]] *)
Definition slice_to {A} (n : Z) (l : list A) : list A :=
  if 0 <=? n then take (Z.to_nat n) l
  else take (length l - Z.to_nat (- n)) l.

Definition extract_top_keywords (articles : list Article) (top_n min_freq : Z)
    : Logged (list (pystr * Z)) :=
  match gather_nouns articles [] with
  | (Ret all_nouns, logs) =>
      let counter := Counter all_nouns in
      let filtered :=
        List.filter (fun kf => kf.2 >=? min_freq) (most_common counter) in
      (Ret (slice_to top_n filtered),
       logs ++ [ExtractDone (len counter) (len filtered)
                            (Z.min top_n (len filtered))])
  | (Raise e, logs) => (Raise e, logs)
  end.

End ExtractKeywords.

(* ================================================================= *)
(** ** Vocabulary of the properties *)

(** An occurrence of [sub] in [s] at index [k]. *)
Definition occurs_at (sub s : pystr) (k : nat) : Prop :=
  startswith sub (drop k s) = true.

(** [out] is [s] cut at its last separator: the part of [s] before the last
    occurrence of " - " when the separator occurs in [s], and [s] itself
    when it does not. *)
Definition cut_at_last_separator (s out : pystr) : Prop :=
  (forall pre post,
      s = pre ++ SEP ++ post ->
      (forall pre' post',
          s = pre' ++ SEP ++ post' -> (length pre' <= length pre)%nat) ->
      out = pre)
  /\ ((forall pre post, s <> pre ++ SEP ++ post) -> out = s).

(** No leading whitespace. *)
Definition starts_clean (s : pystr) : Prop :=
  match s with
  | [] => True
  | c :: _ => isspace c = false
  end.

(** A trimmed string: stripping it changes nothing. *)
Definition trimmed (s : pystr) : Prop := strip s = s.

(** A reply that makes an attempt of [_get] fail: [requests.get] raises a
    [RequestException], or the status makes [raise_for_status] raise. *)
Definition attempt_fails (r : HttpReply) : bool :=
  match r with
  | HttpRaises e => is_RequestException e
  | Replies resp => (400 <=? status_code resp) && (status_code resp <? 600)
  end.

(** The exception the handler of [_get] sees on a failing reply. *)
Definition failure_exn (r : HttpReply) : exn :=
  match r with
  | HttpRaises e => e
  | Replies _ => HTTPError
  end.

(** The seconds slept, in order. *)
Definition sleeps (tr : list Event) : list Q :=
  omap (fun ev => match ev with EvSleep s => Some s | _ => None end) tr.

(** The reply to attempt [k] (counted from 1) of a [_get] started in [st]. *)
Definition reply_to (st : St) (k : Z) : HttpReply :=
  http (world st) (n_http st + Z.to_nat (k - 1)).

(** The state after [n] more calls of [requests.get] and the events [evs]. *)
Definition advance (st : St) (n : nat) (evs : list Event) : St :=
  mkSt (world st) (n_http st + n) (n_feed st) (n_random st) (n_clock st)
       (trace st ++ evs).

(** The backoff sleep after the failed attempt [k]. *)
Definition backoff (k : Z) : Event := EvSleep (inject_Z (2 ^ k)).

(** What a failing attempt [k] of [_get url] leaves in the trace, the
    backoff sleep apart. *)
Definition failed_attempt {R : Runtime} (url : pystr) (st : St) (k : Z)
    : list Event :=
  [EvGet url;
   EvLog WARNING (GetFailed k MAX_RETRIES url (failure_exn (reply_to st k)))].

(** An exception of the world that no handler of the module catches:
    [requests.get] raising outside [RequestException], or
    [feedparser.parse] raising outside [Exception]. *)
Definition uncaught (w : World) (e : exn) : Prop :=
  (exists k, http w k = HttpRaises e /\ is_RequestException e = false)
  \/ (exists k, feeds w k = FeedRaises e /\ is_Exception e = false).

(** The failures of a world are network failures and feed-parse failures:
    [requests.get] raises only [RequestException]s and [feedparser.parse]
    only [Exception]s. *)
Definition failures_only (w : World) : Prop :=
  (forall k e, http w k = HttpRaises e -> is_RequestException e = true)
  /\ (forall k e, feeds w k = FeedRaises e -> is_Exception e = true).

(** What every item of the page parser looks like. *)
Definition page_item (a : Article) : Prop :=
  source a = s_naver
  /\ trimmed (title a)
  /\ trimmed (description a)
  /\ (published a = date a \/ trimmed (published a)).

(** What every item of the feed collector looks like. *)
Definition feed_item (a : Article) : Prop :=
  source a = s_google
  /\ starts_clean (title a)
  /\ trimmed (description a).


(** [spec m Q]: from any state, [m] leaves the world as it is, and either
    returns a value satisfying [Q] or raises an exception of the world that
    no handler catches. *)
Definition spec {A} (m : M A) (Q : A -> Prop) : Prop :=
  forall st,
    world (m st).2 = world st
    /\ match (m st).1 with
       | Ret a => Q a
       | Raise e => uncaught (world st) e
       end.

(** Two states that agree on everything but the random draws (and on the
    trace, which records the sleeps). *)
Definition same_inputs (st1 st2 : St) : Prop :=
  (forall k, http (world st1) k = http (world st2) k)
  /\ (forall k, feeds (world st1) k = feeds (world st2) k)
  /\ (forall k, clock (world st1) k = clock (world st2) k)
  /\ n_http st1 = n_http st2
  /\ n_feed st1 = n_feed st2
  /\ n_clock st1 = n_clock st2.

(** [m] gives the same result, and reads the same inputs, whatever the
    random draws are. *)
Definition delay_independent {A} (m : M A) : Prop :=
  forall st1 st2,
    same_inputs st1 st2 ->
    (m st1).1 = (m st2).1 /\ same_inputs (m st1).2 (m st2).2.

(** [in_world w m Q]: started in the world [w], [m] leaves the world as it
    is, and a value it returns satisfies [Q]. *)
Definition in_world {A} (w : World) (m : M A) (Q : A -> Prop) : Prop :=
  forall st,
    world st = w ->
    world (m st).2 = w /\ forall a, (m st).1 = Ret a -> Q a.




(* ================================================================= *)
(** ** Vocabulary of the further properties *)

Section CollectorVocabulary.
Context {R : Runtime}.

(** What one query adds to the result of the feed collector, by the outcome
    of its [feedparser.parse]. *)
Definition feed_articles (today query : pystr) (r : FeedReply) : list Article :=
  match r with
  | Feed entries =>
      google_article today query
        <$> take (Z.to_nat MAX_ARTICLES_PER_QUERY) entries
  | FeedRaises _ => []
  end.

(** The origin of a record: its source, the query it was found for and the
    date it was collected on. *)
Definition from_run (src : pystr) (queries : list pystr) (today : pystr)
    (a : Article) : Prop :=
  source a = src /\ query a ∈ queries /\ date a = today.

End CollectorVocabulary.

(** [m] calls [requests.get] at most [n] times, however it ends. *)
Definition requests_at_most {A} (m : M A) (n : nat) : Prop :=
  forall st, (n_http (m st).2 <= n_http st + n)%nat.

(** A politeness delay: one of the values that [random.uniform] returns in
    the world. *)
Definition politeness_delay (w : World) (s : Q) : Prop :=
  exists i, s = random w i.

(** A backoff sleep: 2 to the power of an attempt that is not the last. *)
Definition backoff_sleep {R : Runtime} (s : Q) : Prop :=
  exists k, 1 <= k < MAX_RETRIES /\ s = inject_Z (2 ^ k).

(** The address of a result page of one of the queries. *)
Definition page_url {R : Runtime} (queries : list pystr) (url : pystr) : Prop :=
  exists query page,
    query ∈ queries /\ 0 <= page < MAX_PAGES_PER_QUERY
    /\ url = NAVER_NEWS_URL (quote query) (page * 10 + 1).

(** The address of the feed of one of the queries. *)
Definition feed_url {R : Runtime} (queries : list pystr) (url : pystr) : Prop :=
  exists query, query ∈ queries /\ url = GOOGLE_NEWS_RSS_URL (quote query).

(** The events of a run that requests pages at the addresses [G] and feeds at
    the addresses [F]. *)
Definition allowed {R : Runtime} (G F : pystr -> Prop) (w : World)
    (ev : Event) : Prop :=
  match ev with
  | EvGet url => G url
  | EvFeedParse url => F url
  | EvSleep s => backoff_sleep s \/ politeness_delay w s
  | EvLog _ _ => True
  end.

(** [emits P m]: [m] leaves the world as it is and only adds to the trace,
    and the events it adds satisfy [P]. *)
Definition emits {A} (P : World -> Event -> Prop) (m : M A) : Prop :=
  forall st,
    world (m st).2 = world st
    /\ exists evs, trace (m st).2 = trace st ++ evs
                   /\ Forall (P (world st)) evs.

(** The number of times [x] occurs in [l]. *)
Definition occurrences (x : pystr) (l : list pystr) : Z :=
  len (List.filter (fun y => bool_decide (y = x)) l).

(** Counts that never increase along the list. *)
Definition by_falling_count (l : list (pystr * Z)) : Prop :=
  StronglySorted (fun a b => b.2 <= a.2) l.

(** The count [Counter] holds for [k], zero when [k] is not a key. *)
Fixpoint counter_get (counter : list (pystr * Z)) (k : pystr) : Z :=
  match counter with
  | [] => 0
  | (k', n) :: counter' =>
      if bool_decide (k' = k) then n else counter_get counter' k
  end.

(** What [Counter] keeps: each element once, with its number of
    occurrences. *)
Definition counts_of (counter : list (pystr * Z)) (l : list pystr) : Prop :=
  NoDup counter.*1
  /\ Forall (fun kn => 1 <= kn.2) counter
  /\ (forall k, k ∈ counter.*1 <-> k ∈ l)
  /\ (forall k, counter_get counter k = occurrences k l).

Section KeywordVocabulary.
Context {K : KeywordRuntime}.

(** A noun the module may count: it passed every test of
    [_is_valid_token]. *)
Definition countable (noun : pystr) : Prop :=
  MIN_KEYWORD_LEN <= len noun
  /\ (noun ∉ STOPWORDS)
  /\ isdigit noun = false
  /\ (len noun = 1 -> isalpha noun = false).

(** What an article adds to the nouns: nothing when its analysis fails. *)
Definition nouns_of (article : Article) : list pystr :=
  match (extract_nouns
           (join (lit " ") [title article; description article])).1 with
  | Ret nouns => nouns
  | Raise _ => []
  end.

End KeywordVocabulary.

(* ================================================================= *)
(** ** A concrete runtime for examples *)

Module Demo.

(** [str.lower] on ASCII letters; other code points are kept. *)
Definition ascii_lower_ucs4 (_ : pystr) (_ : nat) (c : N) : pystr :=
  [if (65 <=? c) && (c <=? 90) then c + 32 else c]%N.

(** [<a class=cls href=href>s</a>] *)
Definition anchor (cls : list pystr) (href : string) (s : string) : Node :=
  Tag s_a cls [(s_href, lit href)] [NavigableString (lit s)].

Definition document (body : list Node) : Node :=
  Tag (lit "[document]") [] []
      [Tag (lit "html") [] [] [Tag (lit "body") [] [] body]].

(** A legacy result page with two items. *)
Definition legacy_html : pystr :=
  lit "<ul class='list_news'><li class='bx'><a class='news_tit' href='http://n/1'>Flu wave grows</a></li><li class='bx'><a class='news_tit' href='http://n/2'>Measles alert issued</a></li></ul>".


(** The tree of [legacy_html]. *)
Definition legacy_list : Node :=
  Tag (lit "ul") [lit "list_news"] []
    [Tag (lit "li") [lit "bx"] []
       [anchor [lit "news_tit"] "http://n/1" "Flu wave grows"];
     Tag (lit "li") [lit "bx"] []
       [anchor [lit "news_tit"] "http://n/2" "Measles alert issued"]].

Definition legacy_doc : Node := document [legacy_list].

(** The next result page, again with two items. *)
Definition legacy_html2 : pystr :=
  lit "<ul class='list_news'><li class='bx'><a class='news_tit' href='http://n/3'>Norovirus cases climb</a></li><li class='bx'><a class='news_tit' href='http://n/4'>Heat wave warning</a></li></ul>".

Definition legacy_doc2 : Node :=
  document
    [Tag (lit "ul") [lit "list_news"] []
       [Tag (lit "li") [lit "bx"] []
          [anchor [lit "news_tit"] "http://n/3" "Norovirus cases climb"];
        Tag (lit "li") [lit "bx"] []
          [anchor [lit "news_tit"] "http://n/4" "Heat wave warning"]]].

(** A page with one container of the current layout (headline, summary and
    the label "3시간 전") in front of the legacy list. *)
Definition mixed_doc : Node :=
  document
    [Tag (lit "div") [lit "YWTMk0ahJUsxq4uCx9gX"] []
       [anchor [] "https://n.news.naver.com/article/1" "Vaccine drive starts";
        anchor [] "https://n.news.naver.com/article/1" "Clinics open on Monday";
        Tag (lit "span") [lit "sds-comps-profile-info-subtext"] []
          [NavigableString [51; 49884; 44036; 32; 51204]%N]];
     legacy_list].

(** A page whose only container of the current layout is filtered out (its
    title "News" is shorter than five characters), in front of the legacy
    list. *)
Definition filtered_doc : Node :=
  document
    [Tag (lit "div") [lit "YWTMk0ahJUsxq4uCx9gX"] []
       [anchor [] "http://n/articleView?id=1" "News"];
     legacy_list].

(** The markup-free strings parse to one paragraph; the pages above to their
    trees. *)
Definition soup_of (markup : pystr) : Node :=
  if pystr_eqb markup legacy_html then legacy_doc
  else if pystr_eqb markup legacy_html2 then legacy_doc2
  else if pystr_eqb markup [] then Tag (lit "[document]") [] [] []
  else document [Tag (lit "p") [] [] [NavigableString markup]].

(** [str(n)] for a number that is not negative. *)
Definition decimal (n : Z) : pystr :=
  lit (NilZero.string_of_uint (N.to_uint (Z.to_N n))).

(** A configuration: the three limits, two queries of unreserved characters
    (which [quote] leaves as they are) and the two URL templates. *)
Definition runtime (max_retries max_articles max_pages : Z) : Runtime :=
  {| REQUEST_DELAY := (0, 1)%Q;
     MAX_RETRIES := max_retries;
     MAX_ARTICLES_PER_QUERY := max_articles;
     MAX_PAGES_PER_QUERY := max_pages;
     HEALTH_QUERIES := [lit "flu"; lit "measles"];
     NAVER_NEWS_URL := fun q start =>
       lit "https://search.naver.com/search.naver?where=news&query=" ++ q
       ++ lit "&start=" ++ decimal start;
     GOOGLE_NEWS_RSS_URL := fun q =>
       lit "https://news.google.com/rss/search?q=" ++ q;
     quote := fun q => q;
     BeautifulSoup := soup_of;
     lower_ucs4 := ascii_lower_ucs4 |}.

Definition today : pystr := lit "2026-01-05".

Definition ok (html : pystr) : HttpReply := Replies (mkResponse 200 html).

Definition world0 (h : nat -> HttpReply) (f : nat -> FeedReply)
    (r : nat -> Q) : World :=
  {| http := h; feeds := f; random := r; clock := fun _ => today |}.

Definition start (w : World) : St := mkSt w 0 0 0 0 [].

(** Feed entries. *)
Definition entry_flu : Entry :=
  mkEntry (Some (lit "Flu season hits hard - HealthDaily"))
          (Some (lit "Cases rise"))
          (Some (lit "Mon, 05 Jan 2026 09:00:00 GMT"))
          (Some (lit "https://news.example/flu")).

(** An entry whose title has two spaces in front of the separator. *)
Definition entry_spaced : Entry :=
  mkEntry (Some (lit "Flu  - Daily"))
          (Some (lit "Cases rise"))
          (Some (lit "Mon, 05 Jan 2026 09:00:00 GMT"))
          (Some (lit "https://news.example/flu")).

(** Every request is answered with the legacy page, every feed with one
    entry. *)
Definition steady_world (r : nat -> Q) : World :=
  world0 (fun _ => ok legacy_html) (fun _ => Feed [entry_flu]) r.

(** The first request is answered with the first result page, the later
    ones with the next page; every feed has one entry. *)
Definition paged_world : World :=
  world0 (fun k => match k with
                   | O => ok legacy_html
                   | _ => ok legacy_html2
                   end)
         (fun _ => Feed [entry_flu]) (fun _ => (1 # 2)%Q).

(** The first request fails to connect, the second is answered with status
    503, the later ones with the legacy page. *)
Definition flaky_world : World :=
  world0 (fun k => match k with
                   | O => HttpRaises ConnectionError
                   | S O => Replies (mkResponse 503 [])
                   | _ => ok legacy_html
                   end)
         (fun _ => Feed [entry_flu]) (fun _ => (1 # 2)%Q).

(** No request gets through and no feed parses. *)
Definition down_world : World :=
  world0 (fun _ => HttpRaises ConnectionError)
         (fun _ => FeedRaises OtherException) (fun _ => (1 # 2)%Q).

(** No request gets through, the first feed does not parse, the later feeds
    have one entry. *)
Definition feed_only_world : World :=
  world0 (fun _ => HttpRaises ConnectionError)
         (fun k => match k with
                   | O => FeedRaises OtherException
                   | _ => Feed [entry_flu]
                   end)
         (fun _ => (1 # 2)%Q).

(** Every request is answered with an empty page. *)
Definition empty_page_world : World :=
  world0 (fun _ => ok []) (fun _ => Feed [entry_flu]) (fun _ => (1 # 2)%Q).


(** The records of the examples. *)
Definition page_article (q : string) (t href : string) : Article :=
  mkArticle today s_naver (lit q) (lit t) [] (lit href) today.

Definition feed_article (q : string) (t : string) : Article :=
  mkArticle today s_google (lit q) (lit t) (lit "Cases rise")
            (lit "https://news.example/flu")
            (lit "Mon, 05 Jan 2026 09:00:00 GMT").

(** The two records of the specification's deduplication example. *)
Definition news_page : Article :=
  mkArticle today s_naver (lit "flu") (lit " Flu News ") [] [] today.

Definition news_feed : Article :=
  mkArticle today s_google (lit "flu") (lit "flu news") [] [] today.


End Demo.

(* ================================================================= *)
(** ** Further worlds and an analyser for examples *)

Module Examples.

(** The request of index [n] is interrupted from the keyboard; the requests
    before it fail to connect and the later ones are answered with the
    legacy page.  Every feed has one entry. *)
Definition interrupted_world (n : nat) : World :=
  Demo.world0 (fun k => if (k <? n)%nat then HttpRaises ConnectionError
                        else if (k =? n)%nat then HttpRaises KeyboardInterrupt
                        else Demo.ok Demo.legacy_html)
              (fun _ => Feed [Demo.entry_flu]) (fun _ => (1 # 2)%Q).

(** The words of a text: its maximal runs of characters that are not white
    space. *)
Fixpoint words_from (s cur : pystr) : list pystr :=
  match s with
  | [] => match cur with [] => [] | _ => [cur] end
  | c :: s' =>
      if isspace c then
        match cur with
        | [] => words_from s' []
        | _ => cur :: words_from s' []
        end
      else words_from s' (cur ++ [c])
  end.

Definition ascii_isdigit (c : N) : bool := ((48 <=? c) && (c <=? 57))%N.

Definition ascii_isalpha (c : N) : bool :=
  ((65 <=? c) && (c <=? 90) || (97 <=? c) && (c <=? 122))%N.

(** An analyser that takes every word for a common noun, a word of digits
    for a number, and fails on a text that mentions "alert". *)
Definition tokenize (text : pystr) : Res (list Token) :=
  if contains (lit "alert") text then Raise OtherException
  else Ret ((fun w => mkToken w (if forallb ascii_isdigit w then lit "SN"
                                 else lit "NNG"))
              <$> words_from text []).

Definition keyword_runtime : KeywordRuntime :=
  {| TOP_N := 10;
     MIN_FREQ := 1;
     MIN_KEYWORD_LEN := 2;
     STOPWORDS := {[ lit "cases" ]};
     kiwi_tokenize := tokenize;
     char_isdigit := ascii_isdigit;
     char_isalpha := ascii_isalpha |}.

(** The four records of the two legacy pages, and two feed records. *)
Definition headlines : list Article :=
  [Demo.page_article "flu" "Flu wave grows" "http://n/1";
   Demo.page_article "flu" "Measles alert issued" "http://n/2";
   Demo.page_article "flu" "Norovirus cases climb" "http://n/3";
   Demo.page_article "flu" "Heat wave warning 2026" "http://n/4";
   Demo.feed_article "flu" "Flu season hits hard"].



End Examples.

Local Open Scope py_scope.

(* ================================================================= *)
(** ** Facts about strings *)

Lemma startswith_app (p t : pystr) : startswith p (p ++ t) = true.
Proof.
  induction p as [|a p IH]; simpl; [done|].
  by rewrite N.eqb_refl, IH.
Qed.

Lemma startswith_inv (p s : pystr) :
  startswith p s = true -> s = p ++ drop (length p) s.
Proof.
  revert s. induction p as [|a p IH]; intros [|b s] H; simpl in *; try done.
  apply andb_true_iff in H as [Hab Hps].
  apply N.eqb_eq in Hab as ->. f_equal. by apply IH.
Qed.

Lemma occurs_at_split (sub pre post : pystr) :
  occurs_at sub (pre ++ sub ++ post) (length pre).
Proof.
  unfold occurs_at. rewrite drop_app_length. apply startswith_app.
Qed.

Lemma occurs_at_inv (sub s : pystr) (k : nat) :
  (k <= length s)%nat -> occurs_at sub s k ->
  s = take k s ++ sub ++ drop (k + length sub) s.
Proof.
  intros Hk H. apply startswith_inv in H.
  rewrite drop_drop in H. rewrite <- H. by rewrite take_drop.
Qed.

Lemma contains_true (sub s : pystr) :
  contains sub s = true <-> exists k, (k <= length s)%nat /\ occurs_at sub s k.
Proof.
  unfold occurs_at. induction s as [|c s IH].
  - simpl. rewrite orb_false_r. split.
    + intros H. exists 0%nat. by rewrite drop_0.
    + intros (k & Hk & H). by destruct k.
  - cbn [contains]. rewrite orb_true_iff, IH. split.
    + intros [H | (k & Hk & H)].
      * exists 0%nat. rewrite drop_0. split; [simpl; lia | done].
      * exists (S k). simpl. split; [lia | done].
    + intros (k & Hk & H). destruct k as [|k].
      * left. by rewrite drop_0 in H.
      * right. exists k. simpl in *. split; [lia | done].
Qed.

Lemma rfind_from_None (sub s : pystr) (i : nat) :
  rfind_from sub s i = None ->
  forall k, (k <= length s)%nat -> ~ occurs_at sub s k.
Proof.
  unfold occurs_at. revert i. induction s as [|c s IH]; intros i H k Hk Hocc.
  - rewrite drop_nil in Hocc. cbn [rfind_from] in H. by rewrite Hocc in H.
  - cbn [rfind_from] in H.
    destruct (rfind_from sub s (S i)) eqn:E; [done|].
    destruct (startswith sub (c :: s)) eqn:E'; [done|].
    destruct k as [|k]; [by rewrite drop_0, E' in Hocc|].
    simpl in Hk, Hocc. apply (IH (S i) E k); [lia | done].
Qed.

Lemma rfind_from_Some (sub s : pystr) (i j : nat) :
  rfind_from sub s i = Some j ->
  exists k, j = (i + k)%nat /\ (k <= length s)%nat /\ occurs_at sub s k /\
    forall k', (k < k')%nat -> (k' <= length s)%nat -> ~ occurs_at sub s k'.
Proof.
  unfold occurs_at. revert i j. induction s as [|c s IH]; intros i j H.
  - cbn [rfind_from] in H. destruct (startswith sub []) eqn:E; [|done].
    injection H as <-. exists 0%nat. rewrite drop_0.
    repeat split; try lia; try done. intros k' ? Hk'. simpl in Hk'. lia.
  - cbn [rfind_from] in H.
    destruct (rfind_from sub s (S i)) as [j'|] eqn:E.
    + injection H as <-. destruct (IH _ _ E) as (k & -> & Hk & Hocc & Hmax).
      exists (S k). simpl. repeat split; try lia; try done.
      intros [|k'] ? ?; [lia|]. simpl. apply Hmax; lia.
    + destruct (startswith sub (c :: s)) eqn:E'; [|done].
      injection H as <-. exists 0%nat. rewrite drop_0.
      repeat split; try lia; try done.
      intros [|k'] ? ? Hocc; [lia|]. simpl in *.
      eapply (rfind_from_None _ _ _ E k'); [lia | done].
Qed.

Lemma contains_false_no_split (sub s : pystr) :
  contains sub s = false -> forall pre post, s <> pre ++ sub ++ post.
Proof.
  intros H pre post ->.
  assert (contains sub (pre ++ sub ++ post) = true) as Ht; [|congruence].
  apply contains_true. exists (length pre). split.
  - rewrite length_app. lia.
  - apply occurs_at_split.
Qed.

Lemma no_split_contains_false (sub s : pystr) :
  (forall pre post, s <> pre ++ sub ++ post) -> contains sub s = false.
Proof.
  intros H. destruct (contains sub s) eqn:E; [|done].
  apply contains_true in E as (k & Hk & Hocc).
  by destruct (H _ _ (occurs_at_inv _ _ _ Hk Hocc)).
Qed.

(** No later occurrence: the separator does not start again after the first
    character of [sub ++ post]. *)
Lemma last_split_check (sub pre post : pystr) :
  contains sub (drop 1 (sub ++ post)) = false ->
  forall pre' post',
    pre ++ sub ++ post = pre' ++ sub ++ post' ->
    (length pre' <= length pre)%nat.
Proof.
  intros Hno pre' post' Heq.
  destruct (decide (length pre' <= length pre)%nat) as [|Hgt]; [done|].
  exfalso.
  assert (contains sub (drop 1 (sub ++ post)) = true) as Ht; [|congruence].
  apply contains_true.
  exists (length pre' - length pre - 1)%nat.
  assert (length pre + length sub + length post
          = length pre' + length sub + length post')%nat as Hlen.
  { apply (f_equal length) in Heq. rewrite !length_app in Heq. lia. }
  split.
  - rewrite length_drop, length_app. lia.
  - unfold occurs_at. rewrite drop_drop.
    replace (1 + (length pre' - length pre - 1))%nat
      with (length pre' - length pre)%nat by lia.
    assert (drop (length pre') (pre ++ sub ++ post) = sub ++ post') as Hd.
    { rewrite Heq. by rewrite drop_app_length. }
    rewrite drop_app_ge in Hd by lia. rewrite Hd. apply startswith_app.
Qed.

(** Line 87 on [raw_title]: when the separator " - " occurs in it, the
    result is the part before its last occurrence; when it does not occur,
    [raw_title] is returned as it is. *)
Lemma clean_title_cases (raw_title : pystr) :
  (forall pre post,
      raw_title = pre ++ SEP ++ post ->
      (forall pre' post',
          raw_title = pre' ++ SEP ++ post' -> (length pre' <= length pre)%nat) ->
      clean_title raw_title = pre)
  /\ ((forall pre post, raw_title <> pre ++ SEP ++ post) ->
      clean_title raw_title = raw_title)
  /\ clean_title (lit "Flu season hits hard - HealthDaily")
     = lit "Flu season hits hard".
Proof.
  split; [|split; [|reflexivity]].
  - intros pre post Hsplit Hlast. unfold clean_title, rsplit1, rfind.
    assert (occurs_at SEP raw_title (length pre)) as Hocc.
    { rewrite Hsplit. apply occurs_at_split. }
    assert (length pre <= length raw_title)%nat as Hle.
    { rewrite Hsplit, length_app. lia. }
    assert (contains SEP raw_title = true) as ->.
    { apply contains_true. eauto. }
    destruct (rfind_from SEP raw_title 0) as [j|] eqn:E.
    + apply rfind_from_Some in E as (k & -> & Hk & Hocck & Hmax). simpl.
      assert (k = length pre) as ->.
      { pose proof (Hlast _ _ (occurs_at_inv _ _ _ Hk Hocck)) as Hub.
        rewrite length_take in Hub.
        destruct (decide (k < length pre)%nat) as [Hlt|]; [|lia].
        destruct (Hmax _ Hlt Hle Hocc). }
      rewrite Hsplit. by rewrite take_app_length.
    + destruct (rfind_from_None _ _ _ E _ Hle Hocc).
  - intros Hnone. unfold clean_title.
    by rewrite (no_split_contains_false _ _ Hnone).
Qed.

Section FeedTitle.
Context {R : Runtime}.

(** C9, as amended.  The title of a feed entry is trimmed first (line 86),
    and the cleanup of line 87 works on the trimmed title: the record's title
    is the part of the trimmed title before the last occurrence of " - " when
    the separator occurs in the trimmed title, and the trimmed title when it
    does not; "Flu season hits hard - HealthDaily" becomes
    "Flu season hits hard". *)
Theorem feed_title_last_separator (today query : pystr) (entry : Entry) :
  cut_at_last_separator (strip (default [] (entry_title entry)))
                        (title (google_article today query entry))
  /\ title (google_article today query
              (mkEntry (Some (lit "Flu season hits hard - HealthDaily"))
                       None None None))
     = lit "Flu season hits hard".
Proof.
  split; [|reflexivity].
  unfold cut_at_last_separator, google_article. cbn [title].
  destruct (clean_title_cases (strip (default [] (entry_title entry))))
    as (Hcut & Hkeep & _).
  split; [exact Hcut | exact Hkeep].
Qed.

End FeedTitle.

(** A title with blanks around it and two separators: the blanks go first,
    then the part from the last separator on. *)
Lemma feed_title_last_separator_witness :
  title (@google_article (Demo.runtime 3 10 3) Demo.today (lit "flu")
           (mkEntry (Some (lit " Flu shots - are they safe? - HealthDaily "))
                    None None None))
  = lit "Flu shots - are they safe?"
  /\ title (@google_article (Demo.runtime 3 10 3) Demo.today (lit "flu")
              (mkEntry (Some (lit " Flu season hits hard ")) None None None))
     = lit "Flu season hits hard".
Proof.
  split.
  - apply (proj1 (proj1 (@feed_title_last_separator (Demo.runtime 3 10 3)
                           Demo.today (lit "flu")
                           (mkEntry
                              (Some (lit " Flu shots - are they safe? - HealthDaily "))
                              None None None)))
             (lit "Flu shots - are they safe?") (lit "HealthDaily")).
    + reflexivity.
    + apply (last_split_check SEP (lit "Flu shots - are they safe?")
               (lit "HealthDaily")).
      reflexivity.
  - apply (proj2 (proj1 (@feed_title_last_separator (Demo.runtime 3 10 3)
                           Demo.today (lit "flu")
                           (mkEntry (Some (lit " Flu season hits hard "))
                                    None None None)))).
    apply contains_false_no_split. reflexivity.
Defined.

(** C9, counterexample.  On the raw title of the entry the cleanup is not
    the cut at the last separator.  The raw title "Flu - " holds the
    separator, with "Flu" in front of it, and the record's title is "Flu -":
    trimming took the blank that ended the separator.  The raw title " Flu "
    holds no separator and is not returned unchanged: the record's title is
    "Flu". *)
Lemma feed_title_not_cut_from_raw_title :
  title (@google_article (Demo.runtime 3 10 3) Demo.today (lit "flu")
           (mkEntry (Some (lit "Flu - ")) None None None))
  = lit "Flu -"
  /\ ~ cut_at_last_separator (lit "Flu - ")
        (title (@google_article (Demo.runtime 3 10 3) Demo.today (lit "flu")
                  (mkEntry (Some (lit "Flu - ")) None None None)))
  /\ title (@google_article (Demo.runtime 3 10 3) Demo.today (lit "flu")
              (mkEntry (Some (lit " Flu ")) None None None))
     = lit "Flu"
  /\ ~ cut_at_last_separator (lit " Flu ")
        (title (@google_article (Demo.runtime 3 10 3) Demo.today (lit "flu")
                  (mkEntry (Some (lit " Flu ")) None None None))).
Proof.
  split; [reflexivity|]. split; [|split; [reflexivity|]].
  - intros [Hcut _].
    specialize (Hcut (lit "Flu") [] eq_refl
                  (last_split_check SEP (lit "Flu") [] eq_refl)).
    discriminate Hcut.
  - intros [_ Hkeep].
    specialize (Hkeep (contains_false_no_split SEP (lit " Flu ") eq_refl)).
    discriminate Hkeep.
Qed.

(* ================================================================= *)
(** ** Trimmed strings *)

Lemma lstrip_suffix (s : pystr) : exists ws, s = ws ++ lstrip s.
Proof.
  induction s as [|c s [ws IH]]; [by exists []|]. simpl.
  destruct (isspace c).
  - exists (c :: ws). simpl. by f_equal.
  - by exists [].
Qed.

Lemma lstrip_clean (s : pystr) : starts_clean (lstrip s).
Proof.
  induction s as [|c s IH]; [done|]. simpl.
  destruct (isspace c) eqn:E; [done|]. by simpl.
Qed.

Lemma lstrip_id (s : pystr) : starts_clean s -> lstrip s = s.
Proof. destruct s as [|c s]; [done|]. simpl. by intros ->. Qed.

Lemma starts_clean_app (s t : pystr) :
  s <> [] -> starts_clean s -> starts_clean (s ++ t).
Proof. by destruct s. Qed.

Lemma starts_clean_prefix (s t : pystr) :
  starts_clean (s ++ t) -> starts_clean s.
Proof. by destruct s. Qed.

Lemma rstrip_prefix (s : pystr) : exists ws, s = rstrip s ++ ws.
Proof.
  unfold rstrip. destruct (lstrip_suffix (rev s)) as [ws Hws].
  exists (rev ws). rewrite <- rev_app_distr, <- Hws. by rewrite rev_involutive.
Qed.

(** What [strip] returns has no whitespace at either end. *)
Lemma strip_clean (s : pystr) :
  starts_clean (strip s) /\ starts_clean (rev (strip s)).
Proof.
  unfold strip. split.
  - destruct (rstrip_prefix (lstrip s)) as [ws Hws].
    apply starts_clean_prefix with ws. rewrite <- Hws. apply lstrip_clean.
  - unfold rstrip. rewrite rev_involutive. apply lstrip_clean.
Qed.

Lemma trimmed_iff (s : pystr) :
  trimmed s <-> starts_clean s /\ starts_clean (rev s).
Proof.
  unfold trimmed. split.
  - intros <-. apply strip_clean.
  - intros [Hl Hr]. unfold strip, rstrip.
    by rewrite (lstrip_id s), (lstrip_id (rev s)), rev_involutive.
Qed.

Lemma strip_trimmed (s : pystr) : trimmed (strip s).
Proof. apply trimmed_iff, strip_clean. Qed.

Lemma trimmed_nil : trimmed [].
Proof. reflexivity. Qed.

Lemma join_nonempty (sep : pystr) (parts : list pystr) :
  parts <> [] -> Forall (fun p => p <> []) parts -> join sep parts <> [].
Proof.
  destruct parts as [|p [|q rest]]; [done| |].
  - intros _ Hp. by inversion Hp.
  - intros _ Hp. inversion Hp as [|? ? Hne _]. cbn [join].
    by destruct p.
Qed.

Lemma join_starts_clean (sep : pystr) (parts : list pystr) :
  Forall (fun p => p <> [] /\ starts_clean p) parts ->
  starts_clean (join sep parts).
Proof.
  destruct parts as [|p [|q rest]]; [done| |].
  - intros Hp. inversion Hp as [|? ? [_ Hc] _]. done.
  - intros Hp. inversion Hp as [|? ? [Hne Hc] _]. cbn [join].
    by apply starts_clean_app.
Qed.

Lemma join_rev_starts_clean (sep : pystr) (parts : list pystr) :
  Forall (fun p => p <> [] /\ starts_clean (rev p)) parts ->
  starts_clean (rev (join sep parts)).
Proof.
  induction parts as [|p [|q rest] IH]; [done| |].
  - intros Hp. inversion Hp as [|? ? [_ Hc] _]. done.
  - intros Hp. inversion Hp as [|? ? [Hne Hc] Hrest]. subst.
    change (join sep (p :: q :: rest)) with (p ++ sep ++ join sep (q :: rest)).
    rewrite !rev_app_distr, <- app_assoc.
    apply starts_clean_app; [|by apply IH].
    intros Hnil. apply (f_equal (@rev N)) in Hnil.
    rewrite rev_involutive in Hnil. change (rev []) with (@nil N) in Hnil.
    revert Hnil. apply join_nonempty; [done|].
    eapply Forall_impl; [exact Hrest|]. by intros ? [? _].
Qed.

(** Joining non-empty trimmed pieces gives a trimmed string. *)
Lemma join_trimmed (sep : pystr) (parts : list pystr) :
  Forall (fun p => p <> [] /\ trimmed p) parts -> trimmed (join sep parts).
Proof.
  intros Hp. apply trimmed_iff. split.
  - apply join_starts_clean. eapply Forall_impl; [exact Hp|].
    intros p [? [? _]%trimmed_iff]. done.
  - apply join_rev_starts_clean. eapply Forall_impl; [exact Hp|].
    intros p [? [_ ?]%trimmed_iff]. done.
Qed.

(** [get_text(sep, strip=True)] is trimmed. *)
Lemma get_text_trimmed (sep : pystr) (n : Node) : trimmed (get_text sep n).
Proof.
  apply join_trimmed, Forall_forall. intros p Hp.
  apply list_elem_of_omap in Hp as ([anc d] & _ & Hd). simpl in Hd.
  destruct d as [s|]; [|done].
  destruct (bool_decide (strip s = [])) eqn:E; [done|].
  apply bool_decide_eq_false in E. injection Hd as <-.
  split; [done | apply strip_trimmed].
Qed.

Lemma take_starts_clean (n : nat) (s : pystr) :
  starts_clean s -> starts_clean (take n s).
Proof. destruct s, n; done. Qed.

(** The cleaned feed title keeps no leading whitespace. *)
Lemma clean_title_starts_clean (raw_title : pystr) :
  starts_clean raw_title -> starts_clean (clean_title raw_title).
Proof.
  intros H. unfold clean_title, rsplit1.
  destruct (contains SEP raw_title); [|done].
  destruct (rfind SEP raw_title); simpl; [|done].
  by apply take_starts_clean.
Qed.

(* ================================================================= *)
(** ** Deduplication *)

Section Dedup.
Context {R : Runtime}.

Lemma dedup_loop_inv (rest : list Article) (seen : gset pystr)
    (deduped : list Article) :
  exists kept,
    dedup_loop rest seen deduped = deduped ++ kept
    /\ sublist kept rest
    /\ NoDup (dedup_key <$> kept)
    /\ forall k, k ∈ (dedup_key <$> kept)
                 <-> (k ≠ [] /\ (k ∉ seen) /\ k ∈ (dedup_key <$> rest)).
Proof.
  revert seen deduped. induction rest as [|a rest IH]; intros seen deduped.
  - exists []. simpl. rewrite app_nil_r.
    repeat split; try constructor; set_solver.
  - cbn [dedup_loop].
    destruct (bool_decide (dedup_key a ≠ []) && bool_decide (dedup_key a ∉ seen))
      eqn:E.
    + apply andb_true_iff in E as [Hne Hfresh].
      apply bool_decide_eq_true in Hne, Hfresh.
      destruct (IH ({[dedup_key a]} ∪ seen) (deduped ++ [a]))
        as (kept & -> & Hsub & Hnd & Hin).
      exists (a :: kept). rewrite <- app_assoc. split; [done|].
      split; [by constructor|]. split.
      * rewrite fmap_cons. constructor; [|done].
        rewrite Hin. set_solver.
      * intros k. rewrite !fmap_cons, !elem_of_cons, Hin.
        destruct (decide (k = dedup_key a)) as [->|]; set_solver.
    + apply andb_false_iff in E.
      destruct (IH seen deduped) as (kept & -> & Hsub & Hnd & Hin).
      exists kept. split; [done|]. split; [by constructor|]. split; [done|].
      intros k. rewrite Hin, fmap_cons, elem_of_cons.
      destruct E as [E|E]; apply bool_decide_eq_false in E.
      * apply dec_stable in E. split; [naive_solver|].
        intros (? & ? & [->|?]); [congruence | done].
      * apply dec_stable in E. split; [naive_solver|].
        intros (? & ? & [->|?]); done.
Qed.

Lemma forallb_keys (k : pystr) (pre : list Article) :
  forallb (fun b => bool_decide (dedup_key b ≠ k)) pre = true
  <-> k ∉ (dedup_key <$> pre).
Proof.
  rewrite forallb_forall. split.
  - intros H (b & -> & Hb)%list_elem_of_fmap.
    apply list_elem_of_In, H, bool_decide_eq_true in Hb. done.
  - intros H b Hb. apply bool_decide_eq_true. intros <-.
    apply H, list_elem_of_fmap. exists b. split; [done|].
    by apply list_elem_of_In.
Qed.

Lemma dedup_loop_first_occurrences (pre rest : list Article)
    (seen : gset pystr) (deduped : list Article) :
  (forall k, k ∈ seen <-> (k ≠ [] /\ k ∈ (dedup_key <$> pre))) ->
  dedup_loop rest seen deduped
  = deduped ++
    (List.filter (fun p => kept_at (pre ++ rest) p.1 p.2)
       (imap (fun i a => ((length pre + i)%nat, a)) rest)).*2.
Proof.
  revert pre seen deduped.
  induction rest as [|a rest IH]; intros pre seen deduped Hseen.
  - simpl. by rewrite app_nil_r.
  - cbn [dedup_loop imap List.filter].
    assert (kept_at (pre ++ a :: rest) (length pre + 0) a
            = bool_decide (dedup_key a ≠ []) && bool_decide (dedup_key a ∉ seen))
      as Hk.
    { unfold kept_at. rewrite Nat.add_0_r, take_app_length.
      destruct (bool_decide (dedup_key a ≠ [])) eqn:E; [|done]. simpl.
      apply bool_decide_eq_true in E.
      apply eq_true_iff_eq. rewrite forallb_keys, bool_decide_eq_true, Hseen.
      naive_solver. }
    cbn [fst snd]. rewrite Hk.
    assert (imap ((fun i b => ((length pre + i)%nat, b)) ∘ S) rest
            = imap (fun i b => ((length (pre ++ [a]) + i)%nat, b)) rest) as Himap.
    { apply imap_ext. intros i b _. simpl. rewrite length_app. simpl.
      f_equal. lia. }
    rewrite Himap.
    replace (pre ++ a :: rest) with ((pre ++ [a]) ++ rest)
      by (by rewrite <- app_assoc).
    destruct (bool_decide (dedup_key a ≠ []) && bool_decide (dedup_key a ∉ seen))
      eqn:E.
    + apply andb_true_iff in E as [Hne Hfresh].
      apply bool_decide_eq_true in Hne, Hfresh.
      rewrite (IH (pre ++ [a]) ({[dedup_key a]} ∪ seen)).
      * rewrite fmap_cons. simpl. by rewrite <- app_assoc.
      * intros k. rewrite fmap_app, elem_of_app, elem_of_union, Hseen.
        rewrite list_fmap_singleton, list_elem_of_singleton, elem_of_singleton.
        naive_solver.
    + apply andb_false_iff in E.
      rewrite (IH (pre ++ [a]) seen); [done|].
      intros k. rewrite fmap_app, elem_of_app, Hseen.
      rewrite list_fmap_singleton, list_elem_of_singleton.
      destruct E as [E|E]; apply bool_decide_eq_false, dec_stable in E.
      * naive_solver.
      * apply Hseen in E. naive_solver.
Qed.

Lemma dedup_eq_first_occurrences (all_raw : list Article) :
  dedup all_raw = first_occurrences all_raw.
Proof.
  unfold dedup, first_occurrences.
  rewrite (dedup_loop_first_occurrences [] all_raw ∅ []); [done|].
  set_solver.
Qed.

Lemma dedup_inv (all_raw : list Article) :
  sublist (dedup all_raw) all_raw
  /\ NoDup (dedup_key <$> dedup all_raw)
  /\ forall k, k ∈ (dedup_key <$> dedup all_raw)
               <-> (k ≠ [] /\ k ∈ (dedup_key <$> all_raw)).
Proof.
  unfold dedup.
  destruct (dedup_loop_inv all_raw ∅ []) as (kept & -> & Hsub & Hnd & Hin).
  simpl. split; [done|]. split; [done|].
  intros k. rewrite Hin. set_solver.
Qed.

Lemma dedup_loop_app (l1 l2 : list Article) (seen : gset pystr)
    (deduped : list Article) :
  exists seen',
    dedup_loop (l1 ++ l2) seen deduped
    = dedup_loop l2 seen' (dedup_loop l1 seen deduped)
    /\ forall k, k ∈ seen' <-> (k ∈ seen \/ (k ≠ [] /\ k ∈ (dedup_key <$> l1))).
Proof.
  revert seen deduped. induction l1 as [|a l1 IH]; intros seen deduped.
  - exists seen. split; [done|]. set_solver.
  - cbn [app dedup_loop].
    destruct (bool_decide (dedup_key a ≠ []) && bool_decide (dedup_key a ∉ seen))
      eqn:E.
    + apply andb_true_iff in E as [Hne _]. apply bool_decide_eq_true in Hne.
      destruct (IH ({[dedup_key a]} ∪ seen) (deduped ++ [a])) as (s' & -> & Hs').
      exists s'. split; [done|]. intros k. rewrite Hs', fmap_cons, elem_of_cons.
      rewrite elem_of_union, elem_of_singleton. naive_solver.
    + apply andb_false_iff in E.
      destruct (IH seen deduped) as (s' & -> & Hs').
      exists s'. split; [done|]. intros k. rewrite Hs', fmap_cons, elem_of_cons.
      destruct E as [E|E]; apply bool_decide_eq_false, dec_stable in E;
        naive_solver.
Qed.

(** C2. On the page-source results followed by the feed-source results, the
    deduplication of [collect_all_news] keeps the record at index [i] exactly
    when its key lowercase(trim(title)) is not empty and has not occurred at
    an earlier index; the kept records stay in their original relative order,
    carry pairwise distinct non-empty keys, every non-empty key of the input
    is represented, every first occurrence among the page-source records is
    kept, and a feed-source record is kept only when no page-source record
    has its key. *)
Theorem dedup_keeps_first_occurrences (naver google : list Article) :
  let all_raw := naver ++ google in
  dedup all_raw = first_occurrences all_raw
  /\ sublist (dedup all_raw) all_raw
  /\ Forall (fun a => dedup_key a ≠ []) (dedup all_raw)
  /\ NoDup (dedup_key <$> dedup all_raw)
  /\ (forall a, a ∈ all_raw -> dedup_key a ≠ [] ->
      dedup_key a ∈ (dedup_key <$> dedup all_raw))
  /\ (exists kept,
        dedup all_raw = dedup naver ++ kept
        /\ sublist kept google
        /\ forall a b, a ∈ kept -> b ∈ naver -> dedup_key b ≠ dedup_key a).
Proof.
  intros all_raw.
  destruct (dedup_inv all_raw) as (Hsub & Hnd & Hin).
  split; [apply dedup_eq_first_occurrences|].
  split; [done|]. split; [|split; [done|split]].
  - apply Forall_forall. intros a Ha.
    assert (dedup_key a ∈ (dedup_key <$> dedup all_raw)) as Hk
      by (by apply list_elem_of_fmap_2).
    by apply Hin in Hk as [? _].
  - intros a Ha Hne. apply Hin. split; [done|].
    by apply list_elem_of_fmap_2.
  - unfold all_raw, dedup.
    destruct (dedup_loop_app naver google ∅ []) as (seen' & -> & Hseen').
    destruct (dedup_loop_inv google seen' (dedup_loop naver ∅ []))
      as (kept & -> & Hsubk & _ & Hink).
    exists kept. split; [done|]. split; [done|].
    intros a b Ha Hb Heq.
    assert (dedup_key a ∈ (dedup_key <$> kept)) as Hk
      by (by apply list_elem_of_fmap_2).
    apply Hink in Hk as (Hne & Hfresh & _). apply Hfresh, Hseen'. right.
    split; [done|]. rewrite <- Heq. by apply list_elem_of_fmap_2.
Qed.

End Dedup.


(* ================================================================= *)
(** ** The retrying fetch *)

Lemma range_nil (a b : Z) : b <= a -> range a b = [].
Proof. intros H. apply seqZ_nil. lia. Qed.

Lemma range_cons (a b : Z) : a < b -> range a b = a :: range (a + 1) b.
Proof.
  intros H. unfold range. rewrite seqZ_cons by lia.
  f_equal. f_equal; lia.
Qed.

Lemma range_split (a m b : Z) :
  a <= m <= b -> range a b = range a m ++ range m b.
Proof.
  intros H. unfold range.
  replace (b - a) with ((m - a) + (b - m)) by lia.
  rewrite seqZ_app by lia. do 2 f_equal; lia.
Qed.

Section Get.
Context {R : Runtime}.

Lemma advance_advance st n m evs evs' :
  advance (advance st n evs) m evs' = advance st (n + m) (evs ++ evs').
Proof. unfold advance. simpl. f_equal; [lia | by rewrite app_assoc]. Qed.

Lemma advance_0 st : advance st 0 [] = st.
Proof. destruct st. unfold advance. simpl. f_equal; [lia | by rewrite app_nil_r]. Qed.

(** One failing attempt. *)
Lemma _get_attempts_fail url k rest st :
  attempt_fails (http (world st) (n_http st)) = true ->
  _get_attempts url (k :: rest) st
  = _get_attempts url rest
      (advance st 1
         ([EvGet url;
           EvLog WARNING (GetFailed k MAX_RETRIES url
                            (failure_exn (http (world st) (n_http st))))]
          ++ if k <? MAX_RETRIES then [backoff k] else [])).
Proof.
  intros Hf. cbn [_get_attempts]. unfold bind at 1. unfold try_except, bind at 1.
  unfold requests_get.
  destruct (http (world st) (n_http st)) as [resp|e] eqn:E; simpl in Hf.
  - unfold raise_for_status. rewrite Hf. unfold bind, raise, log, emit, ret.
    simpl. destruct (k <? MAX_RETRIES); simpl; unfold advance, backoff; simpl;
      f_equal; (f_equal; [lia | by rewrite <- !app_assoc]).
  - rewrite Hf. unfold bind, raise, log, emit, ret.
    simpl. destruct (k <? MAX_RETRIES); simpl; unfold advance, backoff; simpl;
      f_equal; (f_equal; [lia | by rewrite <- !app_assoc]).
Qed.

(** A successful attempt ends the loop. *)
Lemma _get_attempts_success url k rest st resp :
  http (world st) (n_http st) = Replies resp ->
  attempt_fails (Replies resp) = false ->
  _get_attempts url (k :: rest) st
  = (Ret (Some resp), advance st 1 [EvGet url]).
Proof.
  intros E Hs. cbn [_get_attempts]. unfold bind at 1. unfold try_except, bind at 1.
  unfold requests_get. rewrite E. simpl in Hs.
  unfold raise_for_status. rewrite Hs. unfold advance. simpl.
  unfold ret. do 2 f_equal. lia.
Qed.

Lemma _get_attempts_failing_prefix url st (n : nat) :
  forall (a b : Z) rest evs,
    n = Z.to_nat (b - a) ->
    1 <= a <= b -> b <= MAX_RETRIES ->
    (forall k, a <= k < b -> attempt_fails (reply_to st k) = true) ->
    _get_attempts url (range a b ++ rest) (advance st (Z.to_nat (a - 1)) evs)
    = _get_attempts url rest
        (advance st (Z.to_nat (b - 1))
           (evs ++ flat_map (fun k => failed_attempt url st k ++ [backoff k])
                            (range a b))).
Proof.
  induction n as [|n IH]; intros a b rest evs Hn Hab Hb Hfail.
  - assert (b = a) as -> by lia. rewrite range_nil by lia. simpl.
    by rewrite app_nil_r.
  - rewrite range_cons by lia. cbn [app flat_map].
    rewrite _get_attempts_fail.
    2:{ apply (Hfail a). lia. }
    rewrite advance_advance.
    replace (a <? MAX_RETRIES) with true by (symmetry; apply Z.ltb_lt; lia).
    replace (Z.to_nat (a - 1) + 1)%nat with (Z.to_nat (a + 1 - 1)) by lia.
    rewrite (IH (a + 1) b) by (try lia; intros; apply Hfail; lia).
    do 2 f_equal. rewrite <- !app_assoc. done.
Qed.

Lemma sleeps_app (tr1 tr2 : list Event) :
  sleeps (tr1 ++ tr2) = sleeps tr1 ++ sleeps tr2.
Proof. apply omap_app. Qed.

Lemma sleeps_failed_attempts url st (ks : list Z) :
  sleeps (flat_map (fun k => failed_attempt url st k ++ [backoff k]) ks)
  = (fun k => inject_Z (2 ^ k)) <$> ks.
Proof.
  induction ks as [|k ks IH]; [done|].
  cbn [flat_map]. rewrite sleeps_app, IH. done.
Qed.

(** C3. [_get]: when the attempts 1..N-1 fail and attempt N (at most
    MAX_RETRIES) succeeds, it returns that response, having slept exactly
    2^1, ..., 2^(N-1) seconds, one sleep after each failed attempt and none
    after the last attempt; when all MAX_RETRIES attempts fail it returns
    None (no exception reaches the caller), having slept 2^1, ...,
    2^(MAX_RETRIES-1) seconds and not after the last attempt. *)
Theorem _get_retry_backoff (url : pystr) (st : St) :
  (forall N resp,
      1 <= N <= MAX_RETRIES ->
      (forall k, 1 <= k < N -> attempt_fails (reply_to st k) = true) ->
      reply_to st N = Replies resp ->
      attempt_fails (Replies resp) = false ->
      let evs :=
        flat_map (fun k => failed_attempt url st k ++ [backoff k]) (range 1 N)
        ++ [EvGet url] in
      _get url st = (Ret (Some resp), advance st (Z.to_nat N) evs)
      /\ sleeps evs = (fun k => inject_Z (2 ^ k)) <$> range 1 N)
  /\ ((forall k, 1 <= k <= MAX_RETRIES -> attempt_fails (reply_to st k) = true) ->
      let evs :=
        flat_map (fun k => failed_attempt url st k ++ [backoff k])
                 (range 1 MAX_RETRIES)
        ++ (if 1 <=? MAX_RETRIES then failed_attempt url st MAX_RETRIES else [])
      in
      _get url st = (Ret None, advance st (Z.to_nat MAX_RETRIES) evs)
      /\ sleeps evs = (fun k => inject_Z (2 ^ k)) <$> range 1 MAX_RETRIES).
Proof.
  split.
  - intros N resp HN Hfail Hrep Hok evs. split.
    + unfold _get. rewrite (range_split 1 N) by lia.
      rewrite <- (advance_0 st) at 1.
      rewrite (_get_attempts_failing_prefix url st (Z.to_nat (N - 1)) 1 N)
        by (try lia; done).
      rewrite (range_cons N) by lia.
      erewrite _get_attempts_success; [| |exact Hok].
      * rewrite advance_advance. do 2 f_equal. lia.
      * unfold reply_to in Hrep. simpl. exact Hrep.
    + unfold evs. rewrite sleeps_app, sleeps_failed_attempts. simpl.
      by rewrite app_nil_r.
  - intros Hfail evs. split.
    + unfold _get, evs. destruct (1 <=? MAX_RETRIES) eqn:E.
      * apply Z.leb_le in E.
        rewrite (range_split 1 MAX_RETRIES) by lia.
        rewrite <- (advance_0 st) at 1.
        rewrite (_get_attempts_failing_prefix url st
                   (Z.to_nat (MAX_RETRIES - 1)) 1 MAX_RETRIES)
          by (try lia; intros; apply Hfail; lia).
        rewrite (range_cons MAX_RETRIES) by lia.
        rewrite (range_nil (MAX_RETRIES + 1)) by lia.
        rewrite _get_attempts_fail.
        2:{ apply (Hfail MAX_RETRIES). lia. }
        rewrite Z.ltb_irrefl, advance_advance. simpl.
        unfold ret. do 2 f_equal. lia.
      * apply Z.leb_gt in E. rewrite !range_nil by lia. simpl.
        replace (Z.to_nat MAX_RETRIES) with 0%nat by lia.
        by rewrite advance_0.
    + unfold evs. rewrite sleeps_app, sleeps_failed_attempts.
      destruct (1 <=? MAX_RETRIES); simpl; by rewrite app_nil_r.
Qed.

End Get.

(* ================================================================= *)
(** ** Results and exceptions of the collectors *)

Lemma spec_ret {A} (a : A) (Q : A -> Prop) : Q a -> spec (ret a) Q.
Proof. intros H st. by split. Qed.

Lemma spec_bind {A B} (m : M A) (k : A -> M B) (P : A -> Prop) (Q : B -> Prop) :
  spec m P -> (forall a, P a -> spec (k a) Q) -> spec (bind m k) Q.
Proof.
  intros Hm Hk st. unfold bind. destruct (Hm st) as [Hw Hr].
  destruct (m st) as [[a|e] st1]; simpl in *.
  - destruct (Hk a Hr st1) as [Hw' Hr']. rewrite Hw in Hw', Hr'. by split.
  - by split.
Qed.

Lemma spec_mono {A} (m : M A) (P Q : A -> Prop) :
  spec m P -> (forall a, P a -> Q a) -> spec m Q.
Proof.
  intros Hm HPQ st. destruct (Hm st) as [Hw Hr]. split; [done|].
  destruct ((m st).1); auto.
Qed.

Lemma spec_emit ev : spec (emit ev) (fun _ => True).
Proof. intros st. by split. Qed.

Lemma spec_log lvl msg : spec (log lvl msg) (fun _ => True).
Proof. apply spec_emit. Qed.

Lemma spec_time_sleep s : spec (time_sleep s) (fun _ => True).
Proof. apply spec_emit. Qed.

Lemma spec_random_uniform a b : spec (random_uniform a b) (fun _ => True).
Proof. intros st. by split. Qed.

Lemma spec_now : spec datetime_now_strftime (fun _ => True).
Proof. intros st. by split. Qed.

Create HintDb spec.
#[local] Hint Resolve spec_log spec_time_sleep spec_random_uniform spec_now
  spec_emit : spec.

(** Sequencing with a computation whose value is not inspected. *)
Lemma spec_seq {A B} (m : M A) (k : M B) (Q : B -> Prop) :
  spec m (fun _ => True) -> spec k Q -> spec (bind m (fun _ => k)) Q.
Proof. intros Hm Hk. eapply spec_bind; eauto. Qed.

Section Spec.
Context {R : Runtime}.

Lemma spec__sleep : spec _sleep (fun _ => True).
Proof. unfold _sleep. eapply spec_bind; eauto with spec. Qed.

(** The [try] block of one attempt of [_get]. *)
Lemma spec__get_try url k :
  spec (try_except
          (let! resp := requests_get url in
           raise_for_status resp >>
           ret (Some resp))
          is_RequestException
          (fun e =>
             log WARNING (GetFailed k MAX_RETRIES url e) >>
             (if k <? MAX_RETRIES
              then time_sleep (inject_Z (2 ^ k))
              else ret tt) >>
             ret None))
       (fun _ => True).
Proof.
  intros st. unfold try_except, bind, requests_get, raise_for_status.
  cbv beta. destruct (http (world st) (n_http st)) as [resp|e] eqn:E.
  - destruct ((400 <=? status_code resp) && (status_code resp <? 600)).
    + unfold raise, log, emit, ret, time_sleep, emit. simpl.
      by destruct (k <? MAX_RETRIES).
    + by unfold ret.
  - destruct (is_RequestException e) eqn:Ee.
    + unfold raise, log, emit, ret, time_sleep, emit. simpl.
      by destruct (k <? MAX_RETRIES).
    + simpl. split; [done|]. left. eauto.
Qed.

Lemma spec__get_attempts url attempts :
  spec (_get_attempts url attempts) (fun _ => True).
Proof.
  induction attempts as [|k rest IH]; [by apply spec_ret|].
  cbn [_get_attempts]. eapply spec_bind; [apply spec__get_try|].
  intros [resp|] _; [by apply spec_ret | apply IH].
Qed.

Lemma spec__get url : spec (_get url) (fun _ => True).
Proof. apply spec__get_attempts. Qed.

Lemma google_entries_Forall (P : Article -> Prop) today query entries :
  (forall entry, P (google_article today query entry)) ->
  forall count articles,
    Forall P articles ->
    Forall P (google_entries today query entries count articles).1.
Proof.
  intros HP. induction entries as [|entry rest IH]; intros count articles Ha;
    cbn [google_entries]; [done|].
  destruct (count >=? MAX_ARTICLES_PER_QUERY); [done|].
  apply IH. apply Forall_app. split; [done|]. by constructor.
Qed.

Lemma spec_google_queries (P : Article -> Prop) today queries :
  (forall query entry, P (google_article today query entry)) ->
  forall articles,
    Forall P articles ->
    spec (google_queries today queries articles) (Forall P).
Proof.
  intros HP. induction queries as [|query rest IH]; intros articles Ha;
    [by apply spec_ret|].
  cbn [google_queries]. apply spec_seq; [auto with spec|].
  apply spec_bind with
    (P := fun feed => match feed with
                      | Some _ | None => True
                      end).
  - intros st. unfold try_except, bind, feedparser_parse. cbv beta.
    destruct (feeds (world st) (n_feed st)) as [es|e] eqn:E; [by unfold ret|].
    destruct (is_Exception e) eqn:Ee.
    + unfold log, emit, _sleep, bind, random_uniform, time_sleep, emit, ret.
      by simpl.
    + simpl. split; [done|]. right. eauto.
  - intros [entries|] _; [|by apply IH].
    pose proof (google_entries_Forall P today query entries (HP query) 0
                  articles Ha) as Hf.
    destruct (google_entries today query entries 0 articles) as [articles' count].
    apply spec_seq; [auto with spec|].
    apply spec_seq; [apply spec__sleep|]. by apply IH.
Qed.

Lemma spec_collect_google_news (P : Article -> Prop) queries :
  (forall today query entry, P (google_article today query entry)) ->
  spec (collect_google_news queries) (Forall P).
Proof.
  intros HP. unfold collect_google_news.
  eapply spec_bind; [apply spec_now|]. intros today _.
  apply spec_google_queries; [apply HP | constructor].
Qed.

Lemma spec_naver_page (P : Article -> Prop) query today page acc :
  (forall html, Forall P (_parse_naver_page html query today)) ->
  Forall P acc.1 ->
  spec (naver_page query today page acc) (fun r => Forall P r.2.1).
Proof.
  intros HP Ha. destruct acc as [articles count]. unfold naver_page.
  eapply spec_bind; [apply spec__get|]. intros [resp|] _.
  - pose proof (HP (text resp)) as Hitems.
    destruct (_parse_naver_page (text resp) query today) as [|item items].
    + apply spec_seq; [auto with spec | by apply spec_ret].
    + assert (Forall P (articles ++ item :: items)) as Hall
        by (by apply Forall_app).
      destruct (_ >=? MAX_ARTICLES_PER_QUERY); [by apply spec_ret|].
      apply spec_seq; [apply spec__sleep | by apply spec_ret].
  - apply spec_seq; [auto with spec | by apply spec_ret].
Qed.

Lemma spec_naver_pages (P : Article -> Prop) query today pages :
  (forall html, Forall P (_parse_naver_page html query today)) ->
  forall acc,
    Forall P acc.1 ->
    spec (naver_pages query today pages acc) (fun r => Forall P r.1).
Proof.
  intros HP. induction pages as [|page rest IH]; intros acc Ha;
    [by apply spec_ret|].
  cbn [naver_pages]. eapply spec_bind; [by apply spec_naver_page|].
  intros [[] acc'] Hacc; simpl in Hacc; [by apply IH | by apply spec_ret].
Qed.

Lemma spec_naver_query (P : Article -> Prop) today query articles :
  (forall html, Forall P (_parse_naver_page html query today)) ->
  Forall P articles ->
  spec (naver_query today query articles) (fun r => Forall P r.1).
Proof.
  intros HP Ha. unfold naver_query. apply spec_seq; [auto with spec|].
  eapply spec_bind; [by apply spec_naver_pages|]. intros r Hr.
  apply spec_seq; [auto with spec|].
  apply spec_seq; [apply spec__sleep | by apply spec_ret].
Qed.

Lemma spec_naver_queries (P : Article -> Prop) today queries :
  (forall html query, Forall P (_parse_naver_page html query today)) ->
  forall articles,
    Forall P articles ->
    spec (naver_queries today queries articles) (Forall P).
Proof.
  intros HP. induction queries as [|query rest IH]; intros articles Ha;
    [by apply spec_ret|].
  cbn [naver_queries]. eapply spec_bind; [by apply spec_naver_query|].
  intros r Hr. by apply IH.
Qed.

Lemma spec_collect_naver_news (P : Article -> Prop) queries :
  (forall html query today, Forall P (_parse_naver_page html query today)) ->
  spec (collect_naver_news queries) (Forall P).
Proof.
  intros HP. unfold collect_naver_news.
  eapply spec_bind; [apply spec_now|]. intros today _.
  apply spec_naver_queries; [intros; apply HP | constructor].
Qed.

(** [collect_all_news] returns the deduplication of page-source records
    followed by feed-source records. *)
Lemma spec_collect_all_news (P G : Article -> Prop) queries :
  (forall html query today, Forall P (_parse_naver_page html query today)) ->
  (forall today query entry, G (google_article today query entry)) ->
  spec (collect_all_news queries)
       (fun out => exists naver google,
            out = dedup (naver ++ google) /\ Forall P naver /\ Forall G google).
Proof.
  intros HP HG. unfold collect_all_news. apply spec_seq; [auto with spec|].
  eapply spec_bind; [by apply spec_collect_naver_news|]. intros naver Hn.
  eapply spec_bind; [by apply spec_collect_google_news|]. intros google Hg.
  apply spec_seq; [auto with spec|]. apply spec_ret. eauto.
Qed.

End Spec.

(* ================================================================= *)
(** ** The document tree and the parser *)

(** Induction over documents, with the hypothesis for every child of a tag. *)
Lemma Node_induction (P : Node -> Prop) :
  (forall s, P (NavigableString s)) ->
  (forall name classes attrs contents,
      Forall P contents -> P (Tag name classes attrs contents)) ->
  forall n, P n.
Proof.
  intros Hs Ht.
  refine (fix go (n : Node) : P n :=
            match n with
            | NavigableString s => Hs s
            | Tag name classes attrs contents =>
                Ht name classes attrs contents
                   ((fix all (l : list Node) : Forall P l :=
                       match l with
                       | [] => Forall_nil_2 P
                       | c :: l' => Forall_cons_2 P c l' (go c) (all l')
                       end) contents)
            end).
Qed.

(** The nodes below a tag do not depend on where the tag stands. *)
Lemma descendants_nodes (n : Node) :
  forall anc anc', (descendants_in anc n).*2 = (descendants_in anc' n).*2.
Proof.
  induction n as [s|name classes attrs contents IH] using Node_induction;
    intros anc anc'; [done|].
  cbn [descendants_in].
  generalize (Tag name classes attrs contents :: anc).
  generalize (Tag name classes attrs contents :: anc').
  intros a' a. induction IH as [|c l Hc _ IHl]; [done|].
  rewrite !fmap_cons, !fmap_app. cbn [snd]. f_equal.
  f_equal; [apply Hc | apply IHl].
Qed.

Lemma filter_snd {A B} (q : A * B -> bool) (p : B -> bool) (l : list (A * B)) :
  (forall d, q d = p d.2) ->
  (List.filter q l).*2 = List.filter p (l.*2).
Proof.
  intros Hq. induction l as [|[a b] l IH]; [done|].
  rewrite fmap_cons. cbn [List.filter snd]. rewrite (Hq (a, b)). cbn [snd].
  destruct (p b); [rewrite fmap_cons|]; by rewrite IH.
Qed.

Lemma select_simple_nodes t c anc anc' n :
  (select (Simple t c) (anc, n)).*2 = (select (Simple t c) (anc', n)).*2.
Proof.
  unfold select. cbn [fst snd].
  rewrite !(filter_snd _ (simple_matches t c)) by done.
  by rewrite (descendants_nodes n anc anc').
Qed.

Lemma find_all_a_href_nodes anc anc' n :
  (find_all_a_href (anc, n)).*2 = (find_all_a_href (anc', n)).*2.
Proof.
  unfold find_all_a_href. cbn [fst snd].
  rewrite !(filter_snd _ (fun d => simple_matches (Some s_a) [] d
                                   && has_attr d s_href)) by done.
  by rewrite (descendants_nodes n anc anc').
Qed.

Lemma card_published_nodes today (spans spans' : list Located) :
  spans.*2 = spans'.*2 ->
  card_published today spans = card_published today spans'.
Proof.
  revert spans'. induction spans as [|[a s] spans IH]; intros [|[a' s'] spans'] H;
    try done.
  rewrite !fmap_cons in H. injection H as Hs Hrest. simpl in Hs. subst s'.
  cbn [card_published snd]. by rewrite (IH spans' Hrest).
Qed.

Section Parser.
Context {R : Runtime}.

(** A container of the current layout is parsed from its own subtree. *)
Lemma parse_card_node query today anc anc' n :
  parse_card query today (anc, n) = parse_card query today (anc', n).
Proof.
  unfold parse_card.
  assert ((List.filter is_article_link (find_all_a_href (anc, n))).*2
          = (List.filter is_article_link (find_all_a_href (anc', n))).*2) as Hl.
  { rewrite !(filter_snd _ (fun d => contains s_articleView (tag_get d s_href [])
                                     || contains s_n_news (tag_get d s_href [])))
      by done.
    by rewrite (find_all_a_href_nodes anc anc'). }
  rewrite (card_published_nodes today (select sel_subtext (anc, n))
             (select sel_subtext (anc', n))
             (select_simple_nodes _ _ anc anc' n)).
  destruct (List.filter is_article_link (find_all_a_href (anc, n)))
    as [|[a1 t1] more1];
    destruct (List.filter is_article_link (find_all_a_href (anc', n)))
    as [|[a2 t2] more2]; try done.
  rewrite !fmap_cons in Hl. injection Hl as Ht Hmore. simpl in Ht. subst t2.
  cbn [snd]. destruct more1 as [|[b1 u1] more1], more2 as [|[b2 u2] more2];
    try done.
  rewrite !fmap_cons in Hmore. injection Hmore as Hu _. simpl in Hu. by subst u2.
Qed.

Lemma omap_parse_card_nodes query today (cards cards' : list Located) :
  cards.*2 = cards'.*2 ->
  omap (parse_card query today) cards = omap (parse_card query today) cards'.
Proof.
  revert cards'. induction cards as [|[a n] cards IH]; intros [|[a' n'] cards'] H;
    try done.
  rewrite !fmap_cons in H. injection H as Hn Hrest. simpl in Hn. subst n'.
  cbn [omap list_omap]. rewrite (parse_card_node query today a a' n).
  by rewrite (IH cards' Hrest).
Qed.

(** C6. The dual-layout parser uses one layout per document.  When the
    container selection of the current layout yields a container, the items
    are those of the current-layout rules applied to these containers (also
    when every container is filtered out and nothing is left), and nothing
    else in the document, legacy markup included, has any influence; the
    legacy rules are applied only when that selection yields none. *)
Theorem layout_exclusive (soup : Node) (query today : pystr) :
  let cards := select sel_card ([], soup) in
  (cards <> [] ->
     parse_naver_soup soup query today = omap (parse_card query today) cards
     /\ forall soup',
          (select sel_card ([], soup')).*2 = cards.*2 ->
          parse_naver_soup soup' query today = parse_naver_soup soup query today)
  /\ (cards = [] ->
      parse_naver_soup soup query today
      = omap (parse_legacy_item query today) (legacy_containers ([], soup))).
Proof.
  intros cards. unfold parse_naver_soup. fold cards. split.
  - intros Hne. destruct cards as [|card cards'] eqn:E; [done|]. split; [done|].
    intros soup' Hsame.
    destruct (select sel_card ([], soup')) as [|card' cards''] eqn:E'; [done|].
    by apply omap_parse_card_nodes.
  - by intros ->.
Qed.

End Parser.

(** On a page with a current-layout container in front of a legacy list, only
    the container is parsed; when its title is filtered out, the result is
    empty although the legacy list has two items; a page with the legacy list
    alone is parsed by the legacy rules. *)
Lemma layout_exclusive_witness :
  (title <$> parse_naver_soup Demo.mixed_doc (lit "flu") Demo.today)
  = [lit "Vaccine drive starts"]
  /\ parse_naver_soup Demo.filtered_doc (lit "flu") Demo.today = []
  /\ (title <$> parse_naver_soup Demo.legacy_doc (lit "flu") Demo.today)
     = [lit "Flu wave grows"; lit "Measles alert issued"].
Proof.
  split; [|split].
  - rewrite (proj1 (proj1 (layout_exclusive Demo.mixed_doc (lit "flu")
                             Demo.today) ltac:(done))).
    reflexivity.
  - rewrite (proj1 (proj1 (layout_exclusive Demo.filtered_doc (lit "flu")
                             Demo.today) ltac:(done))).
    reflexivity.
  - rewrite (proj2 (layout_exclusive Demo.legacy_doc (lit "flu")
                      Demo.today) eq_refl).
    reflexivity.
Defined.

(* ================================================================= *)
(** ** The records of the collectors and of the entry point *)

(** What [spec] says about a run that returns, and about a run in a world
    whose only failures are network and feed-parse failures. *)
Lemma spec_returns {A} (m : M A) (Q : A -> Prop) st a :
  spec m Q -> (m st).1 = Ret a -> Q a.
Proof. intros Hm E. destruct (Hm st) as [_ H]. by rewrite E in H. Qed.

Lemma spec_total {A} (m : M A) (Q : A -> Prop) st :
  spec m Q -> failures_only (world st) ->
  exists a st', m st = (Ret a, st') /\ Q a.
Proof.
  intros Hm [Hh Hf]. destruct (Hm st) as [_ H].
  destruct (m st) as [[a|e] st'] eqn:E; simpl in H; [by eauto|].
  destruct H as [(k & Hk & He)|(k & Hk & He)].
  - apply Hh in Hk. congruence.
  - apply Hf in Hk. congruence.
Qed.

Section Items.
Context {R : Runtime}.

Lemma card_published_cases today spans :
  card_published today spans = today
  \/ trimmed (card_published today spans).
Proof.
  induction spans as [|span rest IH]; [by left|]. cbn [card_published].
  destruct (existsb _ _); [right; apply get_text_trimmed | apply IH].
Qed.

Lemma parse_card_item query today card a :
  parse_card query today card = Some a -> page_item a.
Proof.
  unfold parse_card.
  destruct (List.filter is_article_link (find_all_a_href card))
    as [|title_tag more]; [done|].
  destruct (_ || _); [done|]. destruct (bool_decide _); [|done].
  intros [= <-]. unfold page_item. cbn.
  split; [done|]. split; [apply get_text_trimmed|]. split.
  - destruct more; [apply trimmed_nil | apply get_text_trimmed].
  - apply card_published_cases.
Qed.

Lemma parse_legacy_item_item query today li a :
  parse_legacy_item query today li = Some a -> page_item a.
Proof.
  unfold parse_legacy_item.
  destruct (select_one sel_news_tit li) as [title_tag|]; [|done].
  intros [= <-]. unfold page_item. cbn.
  split; [done|]. split; [apply get_text_trimmed|]. split.
  - destruct (or_else _ _); [apply get_text_trimmed | apply trimmed_nil].
  - destruct (or_else _ _); [right; apply get_text_trimmed | by left].
Qed.

Lemma parse_naver_page_items html query today :
  Forall page_item (_parse_naver_page html query today).
Proof.
  unfold _parse_naver_page, parse_naver_soup. apply Forall_forall. intros a.
  destruct (select sel_card ([], BeautifulSoup html)).
  - intros (li & _ & Hli)%list_elem_of_omap.
    by apply parse_legacy_item_item in Hli.
  - intros (card & _ & Hc)%list_elem_of_omap.
    by apply parse_card_item in Hc.
Qed.

Lemma google_article_item today query entry :
  feed_item (google_article today query entry).
Proof.
  unfold feed_item, google_article. cbn. split; [done|]. split.
  - apply clean_title_starts_clean, strip_clean.
  - apply get_text_trimmed.
Qed.

End Items.

Section Claims.
Context {R : Runtime}.

(** C4. Every record returned by [collect_all_news] has a title that is not
    empty after trimming and a source field that is one of the two provider
    values ("naver" for the page source, "google" for the feed source), and
    the keys lowercase(trim(title)) of the returned records are pairwise
    distinct. *)
Theorem collect_all_news_invariants (queries : list pystr) (st : St)
    (out : list Article) :
  (collect_all_news queries st).1 = Ret out ->
  Forall (fun a => strip (title a) <> []
                   /\ (source a = s_naver \/ source a = s_google)) out
  /\ NoDup (dedup_key <$> out).
Proof.
  intros Hrun.
  destruct (spec_returns _ _ _ _
              (spec_collect_all_news page_item feed_item queries
                 parse_naver_page_items google_article_item) Hrun)
    as (naver & google & -> & Hn & Hg).
  destruct (dedup_inv (naver ++ google)) as (Hsub & Hnd & Hin).
  split; [|done]. apply Forall_forall. intros a Ha. split.
  - intros Hempty.
    assert (dedup_key a ∈ (dedup_key <$> dedup (naver ++ google))) as Hk
      by (by apply list_elem_of_fmap_2).
    apply Hin in Hk as [Hne _]. apply Hne. unfold dedup_key.
    by rewrite Hempty.
  - apply (fun H => elem_of_sublist _ _ _ H Hsub), elem_of_app in Ha
      as [Ha|Ha].
    + left. by destruct (proj1 (Forall_forall _ _) Hn a Ha).
    + right. by destruct (proj1 (Forall_forall _ _) Hg a Ha).
Qed.

(** C8. When the only failures are network failures and feed-parse
    failures, [collect_all_news] returns a list for every list of queries: it
    never raises.  The collection step of [main] then ends the run with
    [sys.exit(1)] if and only if that list is empty, and hands the list on
    otherwise. *)
Theorem hard_stop_iff_no_articles (st : St) :
  failures_only (world st) ->
  (forall queries, exists out st', collect_all_news queries st = (Ret out, st'))
  /\ exists out st',
      collect_all_news HEALTH_QUERIES st = (Ret out, st')
      /\ ((main_collect st).1 = Raise (SystemExit 1) <-> out = [])
      /\ (out <> [] -> (main_collect st).1 = Ret out).
Proof.
  intros Hw.
  assert (forall queries, exists out st',
             collect_all_news queries st = (Ret out, st')) as Hret.
  { intros queries.
    destruct (spec_total _ _ st
                (spec_collect_all_news (fun _ => True) (fun _ => True) queries
                   ltac:(intros; by apply Forall_true) ltac:(done)) Hw)
      as (out & st' & Hrun & _).
    eauto. }
  split; [done|].
  destruct (Hret HEALTH_QUERIES) as (out & st' & Hrun).
  exists out, st'. split; [done|].
  unfold main_collect, bind. rewrite Hrun.
  destruct out as [|a out]; simpl.
  - split; [done|]. by intros ?.
  - split; [|done]. split; [done|]. done.
Qed.

(** C5. In the loop over the pages of a query, from a page [page] within
    the budget on: when the fetch of that page returns no result, or the page
    parses to zero items, the loop ends there, whatever pages remain.  The
    articles and the count are as before the page, no further request is
    made (the state is the one the fetch left, with one log record), and the
    collector goes on normally: the missing response is logged as a warning,
    the empty page at debug level. *)
Theorem pagination_stops (query today : pystr) (page : Z)
    (acc : list Article * Z) (st : St) :
  0 <= page < MAX_PAGES_PER_QUERY ->
  let url := NAVER_NEWS_URL (quote query) (page * 10 + 1) in
  let pages := range page MAX_PAGES_PER_QUERY in
  (forall st1,
      _get url st = (Ret None, st1) ->
      naver_pages query today pages acc st
      = (Ret acc,
         advance st1 0 [EvLog WARNING (NaverNoResponse query (page + 1))]))
  /\ (forall resp st1,
        _get url st = (Ret (Some resp), st1) ->
        _parse_naver_page (text resp) query today = [] ->
        naver_pages query today pages acc st
        = (Ret acc,
           advance st1 0 [EvLog DEBUG (NaverNoResult query (page + 1))])).
Proof.
  intros Hpage url pages. unfold pages. rewrite range_cons by lia.
  destruct acc as [articles count]. cbn [naver_pages]. unfold naver_page.
  fold url. split.
  - intros st1 Hget. unfold bind at 1. unfold bind at 1. rewrite Hget.
    unfold bind, log, emit, ret, advance. simpl. do 2 f_equal. lia.
  - intros resp st1 Hget Hparse. unfold bind at 1. unfold bind at 1.
    rewrite Hget, Hparse.
    unfold bind, log, emit, ret, advance. simpl. do 2 f_equal. lia.
Qed.

End Claims.

(* ================================================================= *)
(** ** Independence of the random delays *)

Lemma di_ret {A} (a : A) : delay_independent (ret a).
Proof. by intros st1 st2 H. Qed.

Lemma di_raise {A} (e : exn) : delay_independent (@raise A e).
Proof. by intros st1 st2 H. Qed.

Lemma di_bind {A B} (m : M A) (k : A -> M B) :
  delay_independent m -> (forall a, delay_independent (k a)) ->
  delay_independent (bind m k).
Proof.
  intros Hm Hk st1 st2 H. unfold bind. destruct (Hm st1 st2 H) as [Hr Hs].
  destruct (m st1) as [[a1|e1] st1'], (m st2) as [[a2|e2] st2']; simpl in *;
    try discriminate.
  - injection Hr as <-. by apply Hk.
  - injection Hr as <-. by split.
Qed.

Lemma di_try_except {A} (body : M A) handles (handler : exn -> M A) :
  delay_independent body -> (forall e, delay_independent (handler e)) ->
  delay_independent (try_except body handles handler).
Proof.
  intros Hb Hh st1 st2 H. unfold try_except. destruct (Hb st1 st2 H) as [Hr Hs].
  destruct (body st1) as [[a1|e1] st1'], (body st2) as [[a2|e2] st2'];
    simpl in *; try discriminate.
  - split; assumption.
  - injection Hr as <-. destruct (handles e1); [by apply Hh | by split].
Qed.

Lemma di_emit ev : delay_independent (emit ev).
Proof. by intros st1 st2 H. Qed.

Lemma di_log lvl msg : delay_independent (log lvl msg).
Proof. apply di_emit. Qed.

Lemma di_time_sleep s : delay_independent (time_sleep s).
Proof. apply di_emit. Qed.

Lemma di_now : delay_independent datetime_now_strftime.
Proof.
  intros st1 st2 (Hh & Hf & Hc & Hnh & Hnf & Hnc).
  unfold datetime_now_strftime, same_inputs. simpl.
  rewrite Hnc, Hc. auto 10.
Qed.

Lemma di_requests_get url : delay_independent (requests_get url).
Proof.
  intros st1 st2 (Hh & Hf & Hc & Hnh & Hnf & Hnc).
  unfold requests_get, same_inputs. rewrite Hnh, Hh.
  destruct (http (world st2) (n_http st2)); simpl; auto 10.
Qed.

Lemma di_feedparser_parse url : delay_independent (feedparser_parse url).
Proof.
  intros st1 st2 (Hh & Hf & Hc & Hnh & Hnf & Hnc).
  unfold feedparser_parse, same_inputs. rewrite Hnf, Hf.
  destruct (feeds (world st2) (n_feed st2)); simpl; auto 10.
Qed.

Lemma di_raise_for_status resp : delay_independent (raise_for_status resp).
Proof.
  unfold raise_for_status. destruct (_ && _); [apply di_raise | apply di_ret].
Qed.

Create HintDb di.
#[local] Hint Resolve di_ret di_raise di_log di_time_sleep di_now
  di_requests_get di_feedparser_parse di_raise_for_status : di.

Section Delay.
Context {R : Runtime}.

(** The one place where a random draw is used: the value drawn only becomes
    the length of a sleep. *)
Lemma di__sleep : delay_independent _sleep.
Proof. by intros st1 st2 H. Qed.

#[local] Hint Resolve di__sleep : di.

Ltac di_step :=
  first
    [ solve [auto with di]
    | apply di_try_except; [|intros ?]
    | apply di_bind; [|intros ?] ].

Lemma di__get_attempts url attempts : delay_independent (_get_attempts url attempts).
Proof.
  induction attempts as [|k rest IH]; [apply di_ret|].
  cbn [_get_attempts]. apply di_bind.
  - repeat di_step. destruct (k <? MAX_RETRIES); auto with di.
  - intros [resp|]; [apply di_ret | apply IH].
Qed.

Lemma di__get url : delay_independent (_get url).
Proof. apply di__get_attempts. Qed.

#[local] Hint Resolve di__get : di.

Lemma di_google_queries today queries :
  forall articles, delay_independent (google_queries today queries articles).
Proof.
  induction queries as [|query rest IH]; intros articles; [apply di_ret|].
  cbn [google_queries]. apply di_bind; [auto with di|]. intros _.
  apply di_bind; [repeat di_step|].
  intros [entries|]; [|apply IH].
  destruct (google_entries today query entries 0 articles) as [articles' count].
  repeat di_step.
Qed.

Lemma di_collect_google_news queries :
  delay_independent (collect_google_news queries).
Proof.
  unfold collect_google_news. apply di_bind; [auto with di|].
  intros today. apply di_google_queries.
Qed.

Lemma di_naver_page query today page acc :
  delay_independent (naver_page query today page acc).
Proof.
  destruct acc as [articles count]. unfold naver_page.
  apply di_bind; [auto with di|]. intros [resp|]; [|repeat di_step].
  destruct (_parse_naver_page (text resp) query today); [repeat di_step|].
  destruct (_ >=? _); repeat di_step.
Qed.

Lemma di_naver_pages query today pages :
  forall acc, delay_independent (naver_pages query today pages acc).
Proof.
  induction pages as [|page rest IH]; intros acc; [apply di_ret|].
  cbn [naver_pages]. apply di_bind; [apply di_naver_page|].
  intros [[] acc']; [apply IH | apply di_ret].
Qed.

Lemma di_naver_query today query articles :
  delay_independent (naver_query today query articles).
Proof.
  unfold naver_query. apply di_bind; [auto with di|]. intros _.
  apply di_bind; [apply di_naver_pages|]. intros r. repeat di_step.
Qed.

Lemma di_naver_queries today queries :
  forall articles, delay_independent (naver_queries today queries articles).
Proof.
  induction queries as [|query rest IH]; intros articles; [apply di_ret|].
  cbn [naver_queries]. apply di_bind; [apply di_naver_query|].
  intros r. apply IH.
Qed.

Lemma di_collect_naver_news queries :
  delay_independent (collect_naver_news queries).
Proof.
  unfold collect_naver_news. apply di_bind; [auto with di|].
  intros today. apply di_naver_queries.
Qed.

(** C10. Two runs of [collect_all_news] that get the same provider responses
    and the same run date, and differ only in the random values drawn for the
    delays (and so in what they slept), return the same result: the same
    records in the same order. *)
Theorem delays_do_not_change_output (queries : list pystr) (st1 st2 : St) :
  same_inputs st1 st2 ->
  (collect_all_news queries st1).1 = (collect_all_news queries st2).1.
Proof.
  intros H.
  assert (delay_independent (collect_all_news queries)) as Hdi.
  { unfold collect_all_news. apply di_bind; [auto with di|]. intros _.
    apply di_bind; [apply di_collect_naver_news|]. intros naver.
    apply di_bind; [apply di_collect_google_news|]. intros google.
    repeat di_step. }
  by destruct (Hdi st1 st2 H).
Qed.

End Delay.

(* ================================================================= *)
(** ** The feed collector, query by query *)

Section Feed.
Context {R : Runtime}.

Lemma google_entries_from today query entries :
  forall count articles,
    google_entries today query entries count articles
    = (articles ++ (google_article today query
                      <$> take (Z.to_nat (MAX_ARTICLES_PER_QUERY - count)) entries),
       count + Z.of_nat (length entries
                           `min` Z.to_nat (MAX_ARTICLES_PER_QUERY - count))).
Proof.
  induction entries as [|entry rest IH]; intros count articles;
    cbn [google_entries].
  - rewrite take_nil. simpl. rewrite app_nil_r. f_equal. lia.
  - destruct (count >=? MAX_ARTICLES_PER_QUERY) eqn:E.
    + apply Z.geb_le in E.
      replace (Z.to_nat (MAX_ARTICLES_PER_QUERY - count)) with 0%nat by lia.
      simpl. rewrite app_nil_r. f_equal. lia.
    + rewrite Z.geb_leb in E. apply Z.leb_gt in E. rewrite IH.
      replace (Z.to_nat (MAX_ARTICLES_PER_QUERY - count))
        with (S (Z.to_nat (MAX_ARTICLES_PER_QUERY - (count + 1)))) by lia.
      cbn [take length]. rewrite fmap_cons, <- app_assoc. simpl.
      f_equal. lia.
Qed.

Lemma google_entries_take today query entries articles :
  google_entries today query entries 0 articles
  = (articles ++ (google_article today query
                    <$> take (Z.to_nat MAX_ARTICLES_PER_QUERY) entries),
     len (take (Z.to_nat MAX_ARTICLES_PER_QUERY) entries)).
Proof.
  unfold len. rewrite google_entries_from, Z.sub_0_r, length_take.
  f_equal. lia.
Qed.

(** X1. The loop over the entries of one feed keeps the first
    MAX_ARTICLES_PER_QUERY entries, in feed order, and nothing else; its
    count is the number of entries kept, so it never exceeds a cap that is
    not negative. *)
Theorem google_entries_cap (today query : pystr) (entries : list Entry)
    (articles : list Article) :
  let kept := take (Z.to_nat MAX_ARTICLES_PER_QUERY) entries in
  google_entries today query entries 0 articles
  = (articles ++ (google_article today query <$> kept), len kept)
  /\ len kept <= Z.max 0 MAX_ARTICLES_PER_QUERY
  /\ (len entries <= MAX_ARTICLES_PER_QUERY -> kept = entries).
Proof.
  intros kept. unfold kept. split; [apply google_entries_take|].
  unfold len. rewrite length_take. split; [lia|].
  intros H. apply take_ge. lia.
Qed.

(** One turn of the loop over the queries.  The feed is requested once and
    one delay is drawn, whether the feed parses or fails with an
    [Exception]. *)
Lemma google_queries_step today query rest articles st :
  (forall e, feeds (world st) (n_feed st) = FeedRaises e -> is_Exception e = true) ->
  exists st1,
    google_queries today (query :: rest) articles st
    = google_queries today rest
        (articles ++ feed_articles today query (feeds (world st) (n_feed st))) st1
    /\ world st1 = world st
    /\ n_http st1 = n_http st
    /\ n_feed st1 = S (n_feed st)
    /\ n_random st1 = S (n_random st)
    /\ n_clock st1 = n_clock st.
Proof.
  intros Hexn. cbn [google_queries].
  unfold bind at 1, log at 1, emit at 1. cbv beta iota.
  unfold bind at 1, try_except, bind at 1, feedparser_parse. cbv beta iota.
  cbn [world n_feed n_http n_random n_clock trace].
  destruct (feeds (world st) (n_feed st)) as [entries|e] eqn:E.
  - unfold ret at 1. cbv beta iota. unfold feed_articles.
    rewrite google_entries_take.
    unfold bind at 1, log at 1, emit at 1. cbv beta iota.
    unfold bind at 1, _sleep at 1, bind at 1, random_uniform, time_sleep, emit.
    cbv beta iota. cbn [world n_feed n_http n_random n_clock trace].
    eexists. split; [reflexivity|]. by cbn.
  - rewrite (Hexn e eq_refl).
    unfold bind at 1, log at 1, emit at 1. cbv beta iota.
    unfold bind at 1, _sleep at 1, bind at 1, random_uniform, time_sleep, emit.
    cbv beta iota. cbn [world n_feed n_http n_random n_clock trace].
    unfold ret at 1. cbv beta iota. unfold feed_articles. rewrite app_nil_r.
    eexists. split; [reflexivity|]. by cbn.
Qed.

Lemma google_queries_run today queries :
  forall articles st,
    (forall i e, (i < length queries)%nat ->
                 feeds (world st) (n_feed st + i) = FeedRaises e ->
                 is_Exception e = true) ->
    let run := google_queries today queries articles st in
    run.1 = Ret (articles
                 ++ concat (imap (fun i q =>
                                    feed_articles today q
                                      (feeds (world st) (n_feed st + i)))
                                 queries))
    /\ world run.2 = world st
    /\ n_http run.2 = n_http st
    /\ n_feed run.2 = (n_feed st + length queries)%nat
    /\ n_random run.2 = (n_random st + length queries)%nat
    /\ n_clock run.2 = n_clock st.
Proof.
  induction queries as [|query rest IH]; intros articles st Hexn run.
  - unfold run. simpl. rewrite app_nil_r. repeat split; lia.
  - destruct (google_queries_step today query rest articles st)
      as (st1 & Hstep & Hw & Hh & Hf & Hr & Hc).
    { intros e. rewrite <- (Nat.add_0_r (n_feed st)). apply Hexn. simpl. lia. }
    unfold run. rewrite Hstep.
    destruct (IH (articles
                  ++ feed_articles today query (feeds (world st) (n_feed st)))
                 st1) as (H1 & H2 & H3 & H4 & H5 & H6).
    { intros i e Hi. rewrite Hw, Hf.
      replace (S (n_feed st) + i)%nat with (n_feed st + S i)%nat by lia.
      apply Hexn. simpl. lia. }
    rewrite H1, H2, H3, H4, H5, H6, Hw, Hh, Hf, Hr, Hc.
    split.
    + f_equal. rewrite <- app_assoc. f_equal. cbn [imap concat].
      rewrite Nat.add_0_r. f_equal. f_equal. apply imap_ext.
      intros i q _. simpl. do 2 f_equal. lia.
    + simpl. repeat split; lia.
Qed.

(** X2. When the feeds of a run fail only with [Exception]s, the feed
    collector returns, query after query in the order of the queries, the
    articles of the first MAX_ARTICLES_PER_QUERY entries of the query's
    feed; a query whose feed fails adds nothing and the later queries are
    still collected.  Every query costs exactly one feed request and one
    random delay, and no [requests.get]. *)
Theorem collect_google_news_by_query (queries : list pystr) (st : St) :
  (forall i e, (i < length queries)%nat ->
               feeds (world st) (n_feed st + i) = FeedRaises e ->
               is_Exception e = true) ->
  let today := clock (world st) (n_clock st) in
  let run := collect_google_news queries st in
  run.1 = Ret (concat (imap (fun i q =>
                               feed_articles today q
                                 (feeds (world st) (n_feed st + i)))
                            queries))
  /\ n_feed run.2 = (n_feed st + length queries)%nat
  /\ n_random run.2 = (n_random st + length queries)%nat
  /\ n_http run.2 = n_http st.
Proof.
  intros Hexn today run. unfold run, collect_google_news.
  unfold bind, datetime_now_strftime. cbv beta iota.
  match goal with
  | |- context [google_queries ?t queries [] ?s] =>
      destruct (google_queries_run t queries [] s) as (H1 & H2 & H3 & H4 & H5 & H6)
  end.
  { exact Hexn. }
  rewrite H1, H3, H4, H5. by cbn.
Qed.

End Feed.

(* ================================================================= *)
(** ** More on the deduplication *)

Section DedupMore.
Context {R : Runtime}.

Lemma dedup_loop_distinct (rest : list Article) :
  forall (seen : gset pystr) (deduped : list Article),
    Forall (fun a => dedup_key a ≠ []) rest ->
    NoDup (dedup_key <$> rest) ->
    (forall k, k ∈ (dedup_key <$> rest) -> k ∉ seen) ->
    dedup_loop rest seen deduped = deduped ++ rest.
Proof.
  induction rest as [|a rest IH]; intros seen deduped Hne Hnd Hfresh.
  - simpl. by rewrite app_nil_r.
  - cbn [dedup_loop]. rewrite fmap_cons in Hnd, Hfresh.
    apply Forall_cons in Hne as [Ha Hne]. apply NoDup_cons in Hnd as [Hnotin Hnd].
    rewrite (bool_decide_eq_true_2 _ Ha).
    rewrite (bool_decide_eq_true_2 (dedup_key a ∉ seen)) by set_solver.
    simpl. rewrite IH; [by rewrite <- app_assoc | done | done |].
    intros k Hk. pose proof (Hfresh k). set_solver.
Qed.

(** X3. Deduplication loses nothing it need not lose: a list whose records
    have non-empty, pairwise distinct keys is returned as it is. *)
Theorem dedup_distinct_unchanged (all_raw : list Article) :
  Forall (fun a => dedup_key a ≠ []) all_raw ->
  NoDup (dedup_key <$> all_raw) ->
  dedup all_raw = all_raw.
Proof.
  intros Hne Hnd. unfold dedup.
  rewrite dedup_loop_distinct; [done | done | done | set_solver].
Qed.

(** X4. Deduplicating twice is deduplicating once, and the result is never
    longer than the input. *)
Theorem dedup_idempotent (all_raw : list Article) :
  dedup (dedup all_raw) = dedup all_raw
  /\ (length (dedup all_raw) <= length all_raw)%nat.
Proof.
  destruct (dedup_inv all_raw) as (Hsub & Hnd & Hin). split.
  - unfold dedup at 1.
    rewrite dedup_loop_distinct; [done | | done | set_solver].
    apply Forall_forall. intros a Ha.
    assert (dedup_key a ∈ (dedup_key <$> dedup all_raw)) as Hk
      by (by apply list_elem_of_fmap_2).
    by apply Hin in Hk as [? _].
  - by apply sublist_length.
Qed.

End DedupMore.

(* ================================================================= *)
(** ** More on the parser *)

Section ParserMore.
Context {R : Runtime}.

Lemma parse_card_quality q today card a :
  parse_card q today card = Some a ->
  5 <= len (title a) /\ (title a ∉ _UI_TITLES)
  /\ q = query a /\ date a = today /\ source a = s_naver.
Proof.
  unfold parse_card.
  destruct (List.filter is_article_link (find_all_a_href card))
    as [|title_tag more]; [done|].
  destruct (len (get_text [] title_tag.2) <? 5) eqn:Elen; [by simpl|].
  destruct (bool_decide (get_text [] title_tag.2 ∈ _UI_TITLES)) eqn:Eui;
    [by simpl|].
  cbn [orb]. destruct (bool_decide (get_text [] title_tag.2 ≠ [])); [|done].
  intros [= <-]. cbn [title query date source].
  apply Z.ltb_ge in Elen. apply bool_decide_eq_false in Eui. done.
Qed.

Lemma omap_length_le {A B} (f : A -> option B) (l : list A) :
  (length (omap f l) <= length l)%nat.
Proof.
  induction l as [|x l IH]; [done|]. cbn [omap list_omap].
  destruct (f x); simpl; lia.
Qed.

(** X5. The quality filter of the current layout.  On a document in which
    the container selection of the current layout finds a container, every
    item has a title of at least five characters that is none of the known
    interface strings, and there is at most one item per container.  The
    legacy rules have no such filter: a legacy container yields an item as
    soon as it has a title anchor, whatever the text of the anchor. *)
Theorem current_layout_quality (soup : Node) (query today : pystr) :
  (select sel_card ([], soup) <> [] ->
   Forall (fun a => 5 <= len (title a) /\ (title a ∉ _UI_TITLES))
          (parse_naver_soup soup query today)
   /\ (length (parse_naver_soup soup query today)
       <= length (select sel_card ([], soup)))%nat)
  /\ (select sel_card ([], soup) = [] ->
      length (parse_naver_soup soup query today)
      = length (List.filter (fun li => bool_decide
                                         (is_Some (select_one sel_news_tit li)))
                            (legacy_containers ([], soup)))).
Proof.
  unfold parse_naver_soup. split.
  - intros Hne. destruct (select sel_card ([], soup)) as [|c cs] eqn:E; [done|].
    split; [|apply omap_length_le].
    apply Forall_forall. intros a (card & _ & Hc)%list_elem_of_omap.
    apply parse_card_quality in Hc. tauto.
  - intros ->. induction (legacy_containers ([], soup)) as [|li l IH]; [done|].
    cbn [omap list_omap List.filter]. unfold parse_legacy_item at 1.
    destruct (select_one sel_news_tit li); simpl; by rewrite IH.
Qed.

End ParserMore.

(* ================================================================= *)
(** ** The link and the date of an item of the current layout *)

Lemma card_published_phrase (today : pystr) (spans : list Located) :
  card_published today spans = today
  \/ exists k, k ∈ _time_keywords
               /\ contains k (card_published today spans) = true.
Proof.
  induction spans as [|span rest IH]; [by left|]. cbn [card_published].
  destruct (existsb _ _time_keywords) eqn:E; [|exact IH].
  right. apply existsb_exists in E as (k & Hk & Hc).
  exists k. split; [by apply list_elem_of_In | done].
Qed.

(** X16. The link and the date of an item of the current layout.  On a
    document in which the container selection of the current layout finds a
    container, the link of every item holds "articleView" or
    "n.news.naver.com", and its published field is the run date or a text
    that holds one of the relative-time phrases of [_time_keywords]. *)
Theorem current_layout_link_and_date (soup : Node) (query today : pystr)
    (a : Article) :
  select sel_card ([], soup) <> [] ->
  a ∈ parse_naver_soup soup query today ->
  contains s_articleView (link a) || contains s_n_news (link a) = true
  /\ (published a = today
      \/ exists k, k ∈ _time_keywords /\ contains k (published a) = true).
Proof.
  intros Hne Ha. unfold parse_naver_soup in Ha.
  destruct (select sel_card ([], soup)) as [|c cs]; [done|].
  apply list_elem_of_omap in Ha as (card & _ & Hc). unfold parse_card in Hc.
  destruct (List.filter is_article_link (find_all_a_href card))
    as [|title_tag more] eqn:E; [done|].
  assert (is_article_link title_tag = true) as Hlink.
  { assert (In title_tag (List.filter is_article_link (find_all_a_href card)))
      as Hin by (rewrite E; by left).
    by apply filter_In in Hin as [_ ?]. }
  destruct (_ || _); [done|].
  destruct (bool_decide _); [|done].
  injection Hc as <-. cbn [link published]. split; [exact Hlink|].
  apply card_published_phrase.
Qed.

(* ================================================================= *)
(** ** Where the records come from *)

Section Provenance.
Context {R : Runtime}.

Lemma parse_naver_page_origin html q today :
  Forall (fun a => source a = s_naver /\ query a = q /\ date a = today)
         (_parse_naver_page html q today).
Proof.
  unfold _parse_naver_page, parse_naver_soup. apply Forall_forall. intros a.
  destruct (select sel_card ([], BeautifulSoup html)).
  - intros (li & _ & Hli)%list_elem_of_omap. unfold parse_legacy_item in Hli.
    destruct (select_one sel_news_tit li); [|done]. by injection Hli as <-.
  - intros (card & _ & Hc)%list_elem_of_omap.
    apply parse_card_quality in Hc. naive_solver.
Qed.

Lemma spec_naver_queries_of (P : Article -> Prop) today queries :
  forall qs articles,
    qs ⊆ queries ->
    (forall html query, query ∈ queries ->
                        Forall P (_parse_naver_page html query today)) ->
    Forall P articles ->
    spec (naver_queries today qs articles) (Forall P).
Proof.
  induction qs as [|query rest IH]; intros articles Hsub HP Ha;
    [by apply spec_ret|].
  cbn [naver_queries]. eapply spec_bind.
  - apply (spec_naver_query P); [|done]. intros html. apply HP. set_solver.
  - intros r Hr. apply IH; [set_solver | done | done].
Qed.

Lemma spec_google_queries_of (P : Article -> Prop) today queries :
  forall qs articles,
    qs ⊆ queries ->
    (forall query entry, query ∈ queries ->
                         P (google_article today query entry)) ->
    Forall P articles ->
    spec (google_queries today qs articles) (Forall P).
Proof.
  induction qs as [|query rest IH]; intros articles Hsub HP Ha;
    [by apply spec_ret|].
  assert (query ∈ queries) as Hq by set_solver.
  assert (rest ⊆ queries) as Hrest by set_solver.
  cbn [google_queries]. apply spec_seq; [auto with spec|].
  apply spec_bind with
    (P := fun feed => match feed with
                      | Some _ | None => True
                      end).
  - intros st. unfold try_except, bind, feedparser_parse. cbv beta.
    destruct (feeds (world st) (n_feed st)) as [es|e] eqn:E; [by unfold ret|].
    destruct (is_Exception e) eqn:Ee.
    + unfold log, emit, _sleep, bind, random_uniform, time_sleep, emit, ret.
      by simpl.
    + simpl. split; [done|]. right. eauto.
  - intros [entries|] _; [|by apply IH].
    pose proof (google_entries_Forall P today query entries
                  (fun entry => HP query entry Hq) 0 articles Ha) as Hf.
    destruct (google_entries today query entries 0 articles) as [articles' count].
    apply spec_seq; [auto with spec|].
    apply spec_seq; [apply spec__sleep|]. by apply IH.
Qed.

Lemma spec_collect_naver_news_of queries :
  spec (collect_naver_news queries)
       (Forall (fun a => source a = s_naver /\ query a ∈ queries)).
Proof.
  unfold collect_naver_news.
  eapply spec_bind; [apply spec_now|]. intros today _.
  apply (spec_naver_queries_of _ today queries); [done | | constructor].
  intros html query Hq. eapply Forall_impl; [apply parse_naver_page_origin|].
  intros a (? & -> & _). done.
Qed.

Lemma spec_collect_google_news_of queries :
  spec (collect_google_news queries)
       (Forall (fun a => source a = s_google /\ query a ∈ queries)).
Proof.
  unfold collect_google_news.
  eapply spec_bind; [apply spec_now|]. intros today _.
  apply (spec_google_queries_of _ today queries); [done | | constructor].
  intros query entry Hq. done.
Qed.

(** X6. Every record of a collector names its origin: the page collector
    returns records of source "naver", the feed collector records of source
    "google", each for one of the queries it was called with and dated with
    the clock reading taken when the collector started.  What
    [collect_all_news] returns is made of such records only, so for an empty
    list of queries it returns nothing. *)
Theorem records_name_their_origin (queries : list pystr) (st : St)
    (out : list Article) :
  let today := clock (world st) (n_clock st) in
  ((collect_naver_news queries st).1 = Ret out ->
   Forall (from_run s_naver queries today) out)
  /\ ((collect_google_news queries st).1 = Ret out ->
      Forall (from_run s_google queries today) out)
  /\ ((collect_all_news queries st).1 = Ret out ->
      Forall (fun a => query a ∈ queries
                       /\ (source a = s_naver \/ source a = s_google)) out
      /\ (queries = [] -> out = [])).
Proof.
  intros today. split; [|split].
  - unfold collect_naver_news, bind, datetime_now_strftime. cbv beta iota.
    fold today. intros Hrun.
    refine (spec_returns _ _ _ _ _ Hrun).
    apply (spec_naver_queries_of _ today queries); [done | | constructor].
    intros html query Hq. eapply Forall_impl; [apply parse_naver_page_origin|].
    intros a (Hs & Hqa & Hd). unfold from_run. by rewrite Hqa.
  - unfold collect_google_news, bind, datetime_now_strftime. cbv beta iota.
    fold today. intros Hrun.
    refine (spec_returns _ _ _ _ _ Hrun).
    apply (spec_google_queries_of _ today queries); [done | | constructor].
    intros query entry Hq. done.
  - intros Hrun.
    assert (spec (collect_all_news queries)
              (fun out => exists naver google,
                   out = dedup (naver ++ google)
                   /\ Forall (fun a => source a = s_naver /\ query a ∈ queries) naver
                   /\ Forall (fun a => source a = s_google /\ query a ∈ queries) google))
      as Hspec.
    { unfold collect_all_news. apply spec_seq; [auto with spec|].
      eapply spec_bind; [apply spec_collect_naver_news_of|]. intros naver Hn.
      eapply spec_bind; [apply spec_collect_google_news_of|]. intros google Hg.
      apply spec_seq; [auto with spec|]. apply spec_ret. eauto. }
    destruct (spec_returns _ _ _ _ Hspec Hrun) as (naver & google & -> & Hn & Hg).
    destruct (dedup_inv (naver ++ google)) as (Hsub & _ & _).
    assert (Forall (fun a => query a ∈ queries
                             /\ (source a = s_naver \/ source a = s_google))
                   (dedup (naver ++ google))) as Hall.
    { apply Forall_forall. intros a Ha.
      apply (fun H => elem_of_sublist _ _ _ H Hsub), elem_of_app in Ha
        as [Ha|Ha].
      - destruct (proj1 (Forall_forall _ _) Hn a Ha). auto.
      - destruct (proj1 (Forall_forall _ _) Hg a Ha). auto. }
    split; [done|]. intros ->.
    destruct (dedup (naver ++ google)) as [|a rest]; [done|].
    apply Forall_cons in Hall as [[Ha _] _]. by apply elem_of_nil in Ha.
Qed.

End Provenance.

(* ================================================================= *)
(** ** The request budget *)

Lemma ram_weaken {A} (m : M A) (n n' : nat) :
  requests_at_most m n -> (n <= n')%nat -> requests_at_most m n'.
Proof. intros H Hle st. specialize (H st). lia. Qed.

Lemma ram_ret {A} (a : A) : requests_at_most (ret a) 0.
Proof. intros st. simpl. lia. Qed.

Lemma ram_raise {A} (e : exn) : requests_at_most (@raise A e) 0.
Proof. intros st. simpl. lia. Qed.

Lemma ram_bind {A B} (m : M A) (k : A -> M B) (n p : nat) :
  requests_at_most m n -> (forall a, requests_at_most (k a) p) ->
  requests_at_most (bind m k) (n + p).
Proof.
  intros Hm Hk st. unfold bind. specialize (Hm st).
  destruct (m st) as [[a|e] st1]; simpl in *; [|lia].
  specialize (Hk a st1). lia.
Qed.

Lemma ram_seq {A B} (m : M A) (k : M B) (n : nat) :
  requests_at_most m 0 -> requests_at_most k n ->
  requests_at_most (bind m (fun _ => k)) n.
Proof. intros Hm Hk. apply (ram_bind m (fun _ => k) 0 n); auto. Qed.

Lemma ram_try_except {A} (body : M A) handles (handler : exn -> M A) (n : nat) :
  requests_at_most body n -> (forall e, requests_at_most (handler e) 0) ->
  requests_at_most (try_except body handles handler) n.
Proof.
  intros Hb Hh st. unfold try_except. specialize (Hb st).
  destruct (body st) as [[a|e] st1]; simpl in *; [lia|].
  destruct (handles e); simpl; [|lia]. specialize (Hh e st1). lia.
Qed.

Lemma ram_emit ev : requests_at_most (emit ev) 0.
Proof. intros st. simpl. lia. Qed.

Lemma ram_log lvl msg : requests_at_most (log lvl msg) 0.
Proof. apply ram_emit. Qed.

Lemma ram_time_sleep s : requests_at_most (time_sleep s) 0.
Proof. apply ram_emit. Qed.

Lemma ram_random_uniform a b : requests_at_most (random_uniform a b) 0.
Proof. intros st. simpl. lia. Qed.

Lemma ram_now : requests_at_most datetime_now_strftime 0.
Proof. intros st. simpl. lia. Qed.

Lemma ram_feedparser_parse url : requests_at_most (feedparser_parse url) 0.
Proof.
  intros st. unfold feedparser_parse.
  destruct (feeds (world st) (n_feed st)); simpl; lia.
Qed.

Lemma ram_requests_get url : requests_at_most (requests_get url) 1.
Proof.
  intros st. unfold requests_get.
  destruct (http (world st) (n_http st)); simpl; lia.
Qed.

Lemma ram_raise_for_status resp : requests_at_most (raise_for_status resp) 0.
Proof.
  unfold raise_for_status. destruct (_ && _); [apply ram_raise | apply ram_ret].
Qed.

Create HintDb ram.
#[local] Hint Resolve ram_ret ram_raise ram_log ram_time_sleep
  ram_random_uniform ram_now ram_feedparser_parse ram_raise_for_status : ram.

Section Budget.
Context {R : Runtime}.

Lemma ram__sleep : requests_at_most _sleep 0.
Proof. unfold _sleep. apply (ram_bind _ _ 0 0); auto with ram. Qed.

#[local] Hint Resolve ram__sleep : ram.

Ltac ram0 :=
  repeat first
    [ solve [auto with ram]
    | apply ram_seq
    | apply (ram_bind _ _ 0 0); [|intros ?] ].

Lemma ram__get_attempts url attempts :
  requests_at_most (_get_attempts url attempts) (length attempts).
Proof.
  induction attempts as [|k rest IH]; [apply ram_ret|].
  cbn [_get_attempts length]. apply (ram_bind _ _ 1 (length rest)).
  - apply ram_try_except.
    + apply (ram_bind _ _ 1 0); [apply ram_requests_get|]. intros resp. ram0.
    + intros e. ram0. destruct (k <? MAX_RETRIES); auto with ram.
  - intros [resp|]; [|apply IH].
    apply ram_weaken with 0%nat; [apply ram_ret | lia].
Qed.

Lemma ram__get url : requests_at_most (_get url) (Z.to_nat MAX_RETRIES).
Proof.
  unfold _get. eapply ram_weaken; [apply ram__get_attempts|].
  unfold range. rewrite length_seqZ. lia.
Qed.

Lemma ram_naver_page query today page acc :
  requests_at_most (naver_page query today page acc) (Z.to_nat MAX_RETRIES).
Proof.
  destruct acc as [articles count]. unfold naver_page.
  rewrite <- (Nat.add_0_r (Z.to_nat MAX_RETRIES)).
  apply ram_bind; [apply ram__get|]. intros [resp|]; [|ram0].
  destruct (_parse_naver_page (text resp) query today); [ram0|].
  destruct (_ >=? _); ram0.
Qed.

Lemma ram_naver_pages query today pages :
  forall acc,
    requests_at_most (naver_pages query today pages acc)
                     (length pages * Z.to_nat MAX_RETRIES).
Proof.
  induction pages as [|page rest IH]; intros acc; [apply ram_ret|].
  cbn [naver_pages length]. simpl Nat.mul.
  apply ram_bind; [apply ram_naver_page|].
  intros [[] acc']; [apply IH|].
  apply ram_weaken with 0%nat; [apply ram_ret | lia].
Qed.

Lemma ram_naver_query today query articles :
  requests_at_most (naver_query today query articles)
                   (Z.to_nat MAX_PAGES_PER_QUERY * Z.to_nat MAX_RETRIES).
Proof.
  unfold naver_query. apply ram_seq; [auto with ram|].
  rewrite <- (Nat.add_0_r (_ * _)). apply ram_bind; [|intros r; ram0].
  eapply ram_weaken; [apply ram_naver_pages|].
  unfold range. rewrite length_seqZ. apply Nat.mul_le_mono_r. lia.
Qed.

Lemma ram_naver_queries today queries :
  forall articles,
    requests_at_most (naver_queries today queries articles)
      (length queries
       * (Z.to_nat MAX_PAGES_PER_QUERY * Z.to_nat MAX_RETRIES)).
Proof.
  induction queries as [|query rest IH]; intros articles; [apply ram_ret|].
  cbn [naver_queries length]. simpl Nat.mul.
  apply ram_bind; [apply ram_naver_query|]. intros r. apply IH.
Qed.

Lemma ram_google_queries today queries :
  forall articles, requests_at_most (google_queries today queries articles) 0.
Proof.
  induction queries as [|query rest IH]; intros articles; [apply ram_ret|].
  cbn [google_queries]. apply ram_seq; [auto with ram|].
  apply (ram_bind _ _ 0 0).
  - apply ram_try_except; [|intros e]; ram0.
  - intros [entries|]; [|apply IH].
    destruct (google_entries today query entries 0 articles) as [articles' count].
    apply ram_seq; [auto with ram|]. apply ram_seq; [auto with ram|]. apply IH.
Qed.

(** X7. The request budget.  One call of [_get] makes at most MAX_RETRIES
    calls of [requests.get], and a whole run of [collect_all_news] at most
    MAX_PAGES_PER_QUERY * MAX_RETRIES for each query, however the provider
    answers and however the run ends; the feed collector makes none. *)
Theorem request_budget (queries : list pystr) (url : pystr) (st : St) :
  (n_http (_get url st).2 <= n_http st + Z.to_nat MAX_RETRIES)%nat
  /\ (n_http (collect_google_news queries st).2 <= n_http st)%nat
  /\ (n_http (collect_all_news queries st).2
      <= n_http st
         + length queries
           * (Z.to_nat MAX_PAGES_PER_QUERY * Z.to_nat MAX_RETRIES))%nat.
Proof.
  assert (requests_at_most (collect_google_news queries) 0) as Hg.
  { unfold collect_google_news. apply (ram_bind _ _ 0 0); [auto with ram|].
    intros today. apply ram_google_queries. }
  split; [apply ram__get|]. split.
  - specialize (Hg st). lia.
  - revert st. change (requests_at_most (collect_all_news queries)
                         (length queries
                          * (Z.to_nat MAX_PAGES_PER_QUERY * Z.to_nat MAX_RETRIES))).
    unfold collect_all_news. apply ram_seq; [auto with ram|].
    rewrite <- (Nat.add_0_r (_ * _)). apply ram_bind.
    + unfold collect_naver_news.
      rewrite <- (Nat.add_0_l (_ * _)). apply ram_bind; [auto with ram|].
      intros today. apply ram_naver_queries.
    + intros naver. apply (ram_bind _ _ 0 0); [exact Hg|].
      intros google. ram0.
Qed.

End Budget.

(* ================================================================= *)
(** ** What the records take from the pages and the feeds *)

Lemma in_world_spec {A} w (m : M A) (Q : A -> Prop) :
  spec m Q -> in_world w m Q.
Proof.
  intros H st <-. destruct (H st) as [Hw HQ]. split; [done|].
  intros a E. by rewrite E in HQ.
Qed.

Lemma in_world_ret {A} w (a : A) (Q : A -> Prop) :
  Q a -> in_world w (ret a) Q.
Proof. intros H st Hw. split; [done|]. by intros a' [= <-]. Qed.

Lemma in_world_bind {A B} w (m : M A) (k : A -> M B) (P : A -> Prop)
    (Q : B -> Prop) :
  in_world w m P -> (forall a, P a -> in_world w (k a) Q) ->
  in_world w (bind m k) Q.
Proof.
  intros Hm Hk st Hst. unfold bind. destruct (Hm st Hst) as [Hw HP].
  destruct (m st) as [[a|e] st1]; simpl in *.
  - apply (Hk a (HP a eq_refl) st1 Hw).
  - split; [done|]. by intros b.
Qed.

Lemma in_world_seq {A B} w (m : M A) (k : M B) (Q : B -> Prop) :
  spec m (fun _ => True) -> in_world w k Q -> in_world w (m >> k) Q.
Proof.
  intros Hm Hk. eapply in_world_bind; [by apply in_world_spec|]. by intros.
Qed.

Section Served.
Context {R : Runtime}.
Variable w : World.

(** A response that [_get] returns is a reply of the world. *)
Lemma in_world__get_attempts url attempts :
  in_world w (_get_attempts url attempts)
    (fun r => forall resp, r = Some resp -> exists i, http w i = Replies resp).
Proof.
  induction attempts as [|k rest IH]; [by apply in_world_ret|].
  cbn [_get_attempts].
  eapply in_world_bind with
    (P := fun r => forall resp,
              r = Some resp -> exists i, http w i = Replies resp).
  - intros st <-. destruct (spec__get_try url k st) as [Hw _].
    split; [exact Hw|]. clear Hw.
    unfold try_except, bind, requests_get, raise_for_status. cbv beta.
    destruct (http (world st) (n_http st)) as [resp|e] eqn:E.
    + destruct ((400 <=? status_code resp) && (status_code resp <? 600)).
      * unfold raise, log, emit, ret, time_sleep, emit. simpl.
        destruct (k <? MAX_RETRIES); by intros a [= <-] resp'.
      * unfold ret. simpl. intros a [= <-] resp' [= <-]. eauto.
    + destruct (is_RequestException e); [|by intros a].
      unfold raise, log, emit, ret, time_sleep, emit. simpl.
      destruct (k <? MAX_RETRIES); by intros a [= <-] resp'.
  - intros [resp|] Hr; [|apply IH].
    apply in_world_ret. intros resp' [= <-]. by apply Hr.
Qed.

Lemma in_world__get url :
  in_world w (_get url)
    (fun r => forall resp, r = Some resp -> exists i, http w i = Replies resp).
Proof. apply in_world__get_attempts. Qed.







End Served.

Section Copied.
Context {R : Runtime}.


End Copied.

(* ================================================================= *)
(** ** How far the page collector can pass the cap *)

Section Overshoot.
Context {R : Runtime}.

Lemma in_world_naver_page_count w (k : Z) query today page articles count :
  0 <= k ->
  (forall i resp,
      http w i = Replies resp ->
      len (_parse_naver_page (text resp) query today) <= k) ->
  in_world w (naver_page query today page (articles, count))
    (fun r => exists items,
         r.2.1 = articles ++ items
         /\ r.2.2 = count + len items
         /\ len items <= k
         /\ (r.1 = Continue -> r.2.2 < MAX_ARTICLES_PER_QUERY)).
Proof.
  intros Hk0 Hk.
  assert (in_world_nothing :
            forall (m : M unit),
              spec m (fun _ => True) ->
              in_world w (m >> ret (Break, (articles, count)))
                (fun r => exists items,
                     r.2.1 = articles ++ items
                     /\ r.2.2 = count + len items
                     /\ len items <= k
                     /\ (r.1 = Continue -> r.2.2 < MAX_ARTICLES_PER_QUERY))).
  { intros m Hm. apply in_world_seq; [done|]. apply in_world_ret. exists [].
    cbn. rewrite app_nil_r. unfold len. simpl. repeat split; try lia. done. }
  unfold naver_page. eapply in_world_bind; [apply in_world__get|].
  intros [resp|] Hr.
  - destruct (Hr resp eq_refl) as [i Hi]. pose proof (Hk i resp Hi) as Hitems.
    destruct (_parse_naver_page (text resp) query today) as [|item items] eqn:E.
    + apply in_world_nothing. auto with spec.
    + destruct (_ >=? MAX_ARTICLES_PER_QUERY) eqn:Ecap.
      * apply in_world_ret. exists (item :: items). cbn.
        repeat split; try done.
      * apply in_world_seq; [apply spec__sleep|]. apply in_world_ret.
        exists (item :: items). cbn. repeat split; try done.
        intros _. rewrite Z.geb_leb in Ecap. by apply Z.leb_gt in Ecap.
  - apply in_world_nothing. auto with spec.
Qed.

Lemma in_world_naver_pages_count w (k : Z) query today pages :
  0 <= k ->
  (forall i resp,
      http w i = Replies resp ->
      len (_parse_naver_page (text resp) query today) <= k) ->
  forall articles count,
    in_world w (naver_pages query today pages (articles, count))
      (fun r => exists items,
           r.1 = articles ++ items
           /\ r.2 = count + len items
           /\ r.2 <= Z.max count (MAX_ARTICLES_PER_QUERY - 1) + k).
Proof.
  intros Hk0 Hk.
  induction pages as [|page rest IH]; intros articles count.
  - apply in_world_ret. exists []. cbn. rewrite app_nil_r. unfold len. simpl.
    split; [done|]. lia.
  - cbn [naver_pages].
    eapply in_world_bind; [by apply in_world_naver_page_count|].
    intros [ctl [articles1 count1]] (items & Ha & Hc & Hlen & Hgo).
    cbn [fst snd] in *. subst articles1. destruct ctl.
    + specialize (Hgo eq_refl). intros st Hst.
      destruct (IH (articles ++ items) count1 st Hst) as [Hw Hout].
      split; [exact Hw|]. intros [articles2 count2] Hrun.
      destruct (Hout _ Hrun) as (items2 & Ha2 & Hc2 & Hb2).
      cbn [fst snd] in *.
      exists (items ++ items2). rewrite Ha2, app_assoc. split; [done|].
      unfold len in *. rewrite length_app. lia.
    + apply in_world_ret. exists items. cbn. unfold len in *.
      split; [done|]. lia.
Qed.

(** X8. How far the page collector can pass the cap.  When no page that
    the world serves parses, for the query, to more than [k] items, the loop
    over the pages of the query only adds to the articles it was given,
    counts exactly the items it added, and adds at most
    max(0, MAX_ARTICLES_PER_QUERY - 1) + k of them: pagination stops with the
    page on which the count reaches the cap. *)
Theorem per_query_overshoot_bounded (k : Z) (today query : pystr)
    (articles out : list Article) (count : Z) (st : St) :
  0 <= k ->
  (forall i resp,
      http (world st) i = Replies resp ->
      len (_parse_naver_page (text resp) query today) <= k) ->
  (naver_query today query articles st).1 = Ret (out, count) ->
  exists items,
    out = articles ++ items
    /\ count = len items
    /\ len items <= Z.max 0 (MAX_ARTICLES_PER_QUERY - 1) + k.
Proof.
  intros Hk0 Hk Hrun.
  assert (in_world (world st) (naver_query today query articles)
            (fun r => exists items,
                 r.1 = articles ++ items
                 /\ r.2 = 0 + len items
                 /\ r.2 <= Z.max 0 (MAX_ARTICLES_PER_QUERY - 1) + k)) as Hs.
  { unfold naver_query. apply in_world_seq; [auto with spec|].
    eapply in_world_bind; [by apply in_world_naver_pages_count|].
    intros r Hr. apply in_world_seq; [auto with spec|].
    apply in_world_seq; [apply spec__sleep | by apply in_world_ret]. }
  destruct (Hs st eq_refl) as [_ Hout].
  destruct (Hout _ Hrun) as (items & Ha & Hc & Hb).
  cbn [fst snd] in *. exists items. split; [done|]. split; lia.
Qed.

End Overshoot.

(* ================================================================= *)
(** ** Exceptions that are not caught *)

Lemma bind_raises {A B} (m : M A) (k : A -> M B) st e :
  (m st).1 = Raise e -> (bind m k st).1 = Raise e.
Proof. unfold bind. by destruct (m st) as [[a|e'] st1]; simpl; intros [= ->]. Qed.

Section Uncaught.
Context {R : Runtime}.

Lemma _get_attempts_raises url k rest st e :
  http (world st) (n_http st) = HttpRaises e ->
  is_RequestException e = false ->
  _get_attempts url (k :: rest) st = (Raise e, advance st 1 [EvGet url]).
Proof.
  intros E He. cbn [_get_attempts]. unfold bind at 1, try_except, bind at 1.
  unfold requests_get. rewrite E, He. unfold advance. simpl.
  do 2 f_equal. lia.
Qed.

(** X9. An exception of [requests.get] outside [RequestException] is not
    retried and not swallowed: when the attempts before attempt N fail in
    the ordinary way and attempt N raises such an exception, [_get] raises
    it at once, after the backoff sleeps of the earlier attempts and without
    logging or sleeping for this one. *)
Theorem _get_propagates_other_exceptions (url : pystr) (st : St) (N : Z)
    (e : exn) :
  1 <= N <= MAX_RETRIES ->
  (forall k, 1 <= k < N -> attempt_fails (reply_to st k) = true) ->
  reply_to st N = HttpRaises e ->
  is_RequestException e = false ->
  _get url st
  = (Raise e,
     advance st (Z.to_nat N)
       (flat_map (fun k => failed_attempt url st k ++ [backoff k]) (range 1 N)
        ++ [EvGet url])).
Proof.
  intros HN Hfail Hrep He. unfold _get. rewrite (range_split 1 N) by lia.
  rewrite <- (advance_0 st) at 1.
  rewrite (_get_attempts_failing_prefix url st (Z.to_nat (N - 1)) 1 N)
    by (try lia; done).
  rewrite (range_cons N) by lia.
  erewrite _get_attempts_raises; [| |exact He].
  - rewrite advance_advance. do 2 f_equal. lia.
  - unfold reply_to in Hrep. simpl. exact Hrep.
Qed.

Lemma naver_pages_first_raises query today acc st e :
  1 <= MAX_PAGES_PER_QUERY -> 1 <= MAX_RETRIES ->
  http (world st) (n_http st) = HttpRaises e ->
  is_RequestException e = false ->
  (naver_pages query today (range 0 MAX_PAGES_PER_QUERY) acc st).1 = Raise e.
Proof.
  intros Hp Hr E He. rewrite range_cons by lia. cbn [naver_pages].
  apply bind_raises. destruct acc as [articles count]. unfold naver_page.
  apply bind_raises. unfold _get. rewrite range_cons by lia.
  by rewrite (_get_attempts_raises _ _ _ _ e).
Qed.

(** X10. Such an exception ends the whole collection: when there is a query
    to collect, at least one page and one attempt are allowed, and the first
    call of [requests.get] raises outside [RequestException], then
    [collect_all_news] raises that exception, and so does the collection
    step of [main] unless the list of queries is empty. *)
Theorem first_request_exception_aborts (query : pystr) (rest : list pystr)
    (st : St) (e : exn) :
  1 <= MAX_PAGES_PER_QUERY -> 1 <= MAX_RETRIES ->
  http (world st) (n_http st) = HttpRaises e ->
  is_RequestException e = false ->
  (collect_all_news (query :: rest) st).1 = Raise e
  /\ (HEALTH_QUERIES <> [] -> (main_collect st).1 = Raise e).
Proof.
  intros Hp Hr E He.
  assert (forall q qs, (collect_all_news (q :: qs) st).1 = Raise e) as Hall.
  { intros q qs. unfold collect_all_news.
    unfold bind at 1, log at 1, emit at 1. cbv beta iota.
    apply bind_raises. unfold collect_naver_news.
    unfold bind at 1, datetime_now_strftime at 1. cbv beta iota.
    cbn [naver_queries]. apply bind_raises. unfold naver_query.
    unfold bind at 1, log at 1, emit at 1. cbv beta iota.
    apply bind_raises. by apply naver_pages_first_raises. }
  split; [apply Hall|]. intros Hq. unfold main_collect. apply bind_raises.
  destruct HEALTH_QUERIES as [|q qs]; [done | apply Hall].
Qed.

End Uncaught.

(* ================================================================= *)
(** ** The events of a run *)

Lemma emits_nothing {A} P (m : M A) :
  (forall st, world (m st).2 = world st /\ trace (m st).2 = trace st) ->
  emits P m.
Proof.
  intros H st. destruct (H st) as [Hw Ht]. split; [done|].
  exists []. by rewrite app_nil_r.
Qed.

Lemma emits_ret {A} P (a : A) : emits P (ret a).
Proof. by apply emits_nothing. Qed.

Lemma emits_raise {A} P (e : exn) : emits P (@raise A e).
Proof. by apply emits_nothing. Qed.

Lemma emits_random_uniform P a b : emits P (random_uniform a b).
Proof. by apply emits_nothing. Qed.

Lemma emits_now P : emits P datetime_now_strftime.
Proof. by apply emits_nothing. Qed.

Lemma emits_raise_for_status P resp : emits P (raise_for_status resp).
Proof.
  unfold raise_for_status.
  destruct (_ && _); [apply emits_raise | apply emits_ret].
Qed.

Lemma emits_emit P ev : (forall w, P w ev) -> emits P (emit ev).
Proof.
  intros H st. split; [done|]. exists [ev]. split; [done|].
  by constructor.
Qed.

Lemma emits_requests_get P url :
  (forall w, P w (EvGet url)) -> emits P (requests_get url).
Proof.
  intros H st. unfold requests_get.
  destruct (http (world st) (n_http st)); (split; [done|]);
    exists [EvGet url]; (split; [done|]); by constructor.
Qed.

Lemma emits_feedparser_parse P url :
  (forall w, P w (EvFeedParse url)) -> emits P (feedparser_parse url).
Proof.
  intros H st. unfold feedparser_parse.
  destruct (feeds (world st) (n_feed st)); (split; [done|]);
    exists [EvFeedParse url]; (split; [done|]); by constructor.
Qed.

(** The events of two computations in a row: those of the first, then those
    of the second. *)
Lemma emits_then {A B} P Q (m : M A) (k : A -> M B) :
  emits P m -> (forall a, emits Q (k a)) ->
  forall st,
    world (bind m k st).2 = world st
    /\ exists evs1 evs2,
         trace (bind m k st).2 = trace st ++ evs1 ++ evs2
         /\ Forall (P (world st)) evs1 /\ Forall (Q (world st)) evs2.
Proof.
  intros Hm Hk st. unfold bind.
  destruct (Hm st) as (Hw & evs1 & Ht & H1).
  destruct (m st) as [[a|e] st1]; simpl in *.
  - destruct (Hk a st1) as (Hw' & evs2 & Ht' & H2).
    split; [congruence|]. exists evs1, evs2.
    rewrite Ht', Ht, <- app_assoc. rewrite Hw in H2. done.
  - split; [done|]. exists evs1, []. by rewrite app_nil_r.
Qed.

Lemma emits_bind {A B} P (m : M A) (k : A -> M B) :
  emits P m -> (forall a, emits P (k a)) -> emits P (bind m k).
Proof.
  intros Hm Hk st.
  destruct (emits_then P P m k Hm Hk st) as (Hw & evs1 & evs2 & Ht & H1 & H2).
  split; [done|]. exists (evs1 ++ evs2). split; [done|].
  by apply Forall_app.
Qed.

Lemma emits_try_except {A} P (body : M A) handles (handler : exn -> M A) :
  emits P body -> (forall e, emits P (handler e)) ->
  emits P (try_except body handles handler).
Proof.
  intros Hb Hh st. unfold try_except.
  destruct (Hb st) as (Hw & evs1 & Ht & H1).
  destruct (body st) as [[a|e] st1]; simpl in *; [by eauto|].
  destruct (handles e); [|by eauto].
  destruct (Hh e st1) as (Hw' & evs2 & Ht' & H2).
  split; [congruence|]. exists (evs1 ++ evs2).
  rewrite Ht', Ht, <- app_assoc. split; [done|].
  apply Forall_app. rewrite Hw in H2. done.
Qed.

Lemma emits_mono {A} (P Q : World -> Event -> Prop) (m : M A) :
  (forall w ev, P w ev -> Q w ev) -> emits P m -> emits Q m.
Proof.
  intros HPQ Hm st. destruct (Hm st) as (Hw & evs & Ht & H).
  split; [done|]. exists evs. split; [done|].
  eapply Forall_impl; [exact H|]. apply HPQ.
Qed.

Section Events.
Context {R : Runtime}.

Lemma emits_log G F lvl msg : emits (allowed G F) (log lvl msg).
Proof. by apply emits_emit. Qed.

Lemma emits__sleep G F : emits (allowed G F) _sleep.
Proof.
  intros st. split; [done|]. unfold _sleep, bind, random_uniform, time_sleep.
  simpl. eexists [_]. split; [done|]. constructor; [|done].
  right. by exists (n_random st).
Qed.

Lemma emits__get_attempts G F url attempts :
  G url -> Forall (fun k => 1 <= k) attempts ->
  emits (allowed G F) (_get_attempts url attempts).
Proof.
  intros Hurl. induction 1 as [|k rest Hk _ IH]; [apply emits_ret|].
  cbn [_get_attempts]. apply emits_bind.
  - apply emits_try_except.
    + apply emits_bind; [by apply emits_requests_get|]. intros resp.
      apply emits_bind; [apply emits_raise_for_status|]. intros _.
      apply emits_ret.
    + intros e. apply emits_bind; [apply emits_log|]. intros _.
      apply emits_bind; [|intros _; apply emits_ret].
      destruct (k <? MAX_RETRIES) eqn:E; [|apply emits_ret].
      apply Z.ltb_lt in E. apply emits_emit. intros w. left.
      exists k. split; [lia | done].
  - intros [resp|]; [apply emits_ret | apply IH].
Qed.

Lemma emits__get G F url : G url -> emits (allowed G F) (_get url).
Proof.
  intros Hurl. apply emits__get_attempts; [done|].
  apply Forall_forall. intros k Hk. unfold range in Hk.
  apply elem_of_seqZ in Hk. lia.
Qed.

Lemma emits_naver_page G F query today page acc :
  G (NAVER_NEWS_URL (quote query) (page * 10 + 1)) ->
  emits (allowed G F) (naver_page query today page acc).
Proof.
  intros Hurl. destruct acc as [articles count]. unfold naver_page.
  apply emits_bind; [by apply emits__get|]. intros [resp|].
  - destruct (_parse_naver_page (text resp) query today).
    + apply emits_bind; [apply emits_log | intros _; apply emits_ret].
    + destruct (_ >=? _); [apply emits_ret|].
      apply emits_bind; [apply emits__sleep | intros _; apply emits_ret].
  - apply emits_bind; [apply emits_log | intros _; apply emits_ret].
Qed.

Lemma emits_naver_pages G F query today pages :
  Forall (fun page => G (NAVER_NEWS_URL (quote query) (page * 10 + 1))) pages ->
  forall acc, emits (allowed G F) (naver_pages query today pages acc).
Proof.
  induction 1 as [|page rest Hp _ IH]; intros acc; [apply emits_ret|].
  cbn [naver_pages]. apply emits_bind; [by apply emits_naver_page|].
  intros [[] acc']; [apply IH | apply emits_ret].
Qed.

Lemma emits_naver_queries F queries today :
  forall qs articles,
    qs ⊆ queries ->
    emits (allowed (page_url queries) F) (naver_queries today qs articles).
Proof.
  induction qs as [|query rest IH]; intros articles Hsub; [apply emits_ret|].
  cbn [naver_queries]. apply emits_bind; [|intros r; apply IH; set_solver].
  unfold naver_query. apply emits_bind; [apply emits_log|]. intros _.
  apply emits_bind.
  - apply emits_naver_pages. apply Forall_forall. intros page Hp.
    unfold range in Hp. apply elem_of_seqZ in Hp.
    exists query, page. split; [set_solver|]. split; [lia | done].
  - intros r. apply emits_bind; [apply emits_log|]. intros _.
    apply emits_bind; [apply emits__sleep | intros _; apply emits_ret].
Qed.

Lemma emits_google_queries G queries today :
  forall qs articles,
    qs ⊆ queries ->
    emits (allowed G (feed_url queries)) (google_queries today qs articles).
Proof.
  induction qs as [|query rest IH]; intros articles Hsub; [apply emits_ret|].
  assert (rest ⊆ queries) as Hrest by set_solver.
  cbn [google_queries]. apply emits_bind; [apply emits_log|]. intros _.
  apply emits_bind.
  - apply emits_try_except.
    + apply emits_bind; [|intros f; apply emits_ret].
      apply emits_feedparser_parse. intros w. exists query.
      split; [set_solver | done].
    + intros e. apply emits_bind; [apply emits_log|]. intros _.
      apply emits_bind; [apply emits__sleep | intros _; apply emits_ret].
  - intros [entries|]; [|by apply IH].
    destruct (google_entries today query entries 0 articles)
      as [articles' count].
    apply emits_bind; [apply emits_log|]. intros _.
    apply emits_bind; [apply emits__sleep | intros _; by apply IH].
Qed.

Lemma emits_collect_naver_news queries :
  emits (allowed (page_url queries) (fun _ => False))
        (collect_naver_news queries).
Proof.
  unfold collect_naver_news. apply emits_bind; [apply emits_now|].
  intros today. by apply emits_naver_queries.
Qed.

Lemma emits_collect_google_news queries :
  emits (allowed (fun _ => False) (feed_url queries))
        (collect_google_news queries).
Proof.
  unfold collect_google_news. apply emits_bind; [apply emits_now|].
  intros today. by apply emits_google_queries.
Qed.

(** The events of [collect_all_news]: those of the page collector, then
    those of the feed collector. *)
Lemma collect_all_news_events queries st :
  exists evs_page evs_feed,
    trace (collect_all_news queries st).2 = trace st ++ evs_page ++ evs_feed
    /\ Forall (allowed (page_url queries) (fun _ => False) (world st)) evs_page
    /\ Forall (allowed (fun _ => False) (feed_url queries) (world st)) evs_feed.
Proof.
  unfold collect_all_news. unfold bind at 1, log at 1, emit at 1.
  cbv beta iota.
  match goal with
  | |- context [bind (collect_naver_news queries) ?k ?s] =>
      destruct (emits_then _ (allowed (fun _ => False) (feed_url queries))
                  (collect_naver_news queries) k
                  (emits_collect_naver_news queries)) with (st := s)
        as (_ & evs1 & evs2 & Ht & H1 & H2)
  end.
  { intros naver. apply emits_bind; [apply emits_collect_google_news|].
    intros google. apply emits_bind; [apply emits_log|]. intros _.
    apply emits_ret. }
  exists (EvLog INFO CollectStart :: evs1), evs2. rewrite Ht. simpl.
  rewrite <- app_assoc. split; [done|]. split; [|done].
  by constructor.
Qed.

(** X14. A run of [collect_all_news] only adds to the trace, and every
    sleep it adds is a backoff of [2 ** attempt] seconds for an attempt that
    was not the last, or the value that a call of [random.uniform] returned:
    the module sleeps for nothing else. *)
Theorem sleeps_are_backoffs_or_delays (queries : list pystr) (st : St) :
  exists evs,
    trace (collect_all_news queries st).2 = trace st ++ evs
    /\ Forall (fun s => backoff_sleep s \/ politeness_delay (world st) s)
              (sleeps evs).
Proof.
  destruct (collect_all_news_events queries st)
    as (evs1 & evs2 & Ht & H1 & H2).
  exists (evs1 ++ evs2). split; [done|].
  apply Forall_forall. intros s Hs. unfold sleeps in Hs.
  apply list_elem_of_omap in Hs as (ev & Hev & Hsome).
  destruct ev as [| |s'|]; try done. injection Hsome as ->.
  apply elem_of_app in Hev as [Hev|Hev].
  - apply (proj1 (Forall_forall _ _) H1 _ Hev).
  - apply (proj1 (Forall_forall _ _) H2 _ Hev).
Qed.

(** X15. What a run of [collect_all_news] asks of the providers.  Every
    page request comes before every feed request; a page is requested at
    the address of one of the queries with the offset [page * 10 + 1] of a
    page below MAX_PAGES_PER_QUERY, and a feed at the address of one of the
    queries. *)
Theorem requests_in_order (queries : list pystr) (st : St) :
  exists evs_page evs_feed,
    trace (collect_all_news queries st).2 = trace st ++ evs_page ++ evs_feed
    /\ Forall (fun ev => match ev with
                         | EvGet url => page_url queries url
                         | EvFeedParse _ => False
                         | _ => True
                         end) evs_page
    /\ Forall (fun ev => match ev with
                         | EvFeedParse url => feed_url queries url
                         | EvGet _ => False
                         | _ => True
                         end) evs_feed.
Proof.
  destruct (collect_all_news_events queries st)
    as (evs1 & evs2 & Ht & H1 & H2).
  exists evs1, evs2. split; [done|].
  split; (eapply Forall_impl; [eassumption|]); by intros [].
Qed.

End Events.

(* ================================================================= *)
(** ** Counting and ranking keywords *)

Lemma counter_get_add counter x k :
  counter_get (counter_add counter x) k
  = counter_get counter k + (if bool_decide (x = k) then 1 else 0).
Proof.
  induction counter as [|[k' n] counter IH]; simpl.
  - repeat case_bool_decide; lia.
  - destruct (bool_decide (k' = x)) eqn:E; simpl.
    + apply bool_decide_eq_true in E as ->. repeat case_bool_decide; lia.
    + apply bool_decide_eq_false in E.
      repeat case_bool_decide; subst; try done; try lia.
      all: rewrite IH; repeat case_bool_decide; try done; lia.
Qed.

Lemma counter_add_keys counter x :
  (counter_add counter x).*1
  = if bool_decide (x ∈ counter.*1) then counter.*1 else counter.*1 ++ [x].
Proof.
  induction counter as [|[k n] counter IH]; [done|]. cbn [counter_add].
  destruct (bool_decide (k = x)) eqn:E; rewrite !fmap_cons; cbn [fst].
  - apply bool_decide_eq_true in E as ->.
    rewrite bool_decide_eq_true_2; [done | set_solver].
  - apply bool_decide_eq_false in E. rewrite IH.
    destruct (bool_decide (x ∈ counter.*1)) eqn:E'.
    + apply bool_decide_eq_true in E'.
      rewrite bool_decide_eq_true_2; [done | set_solver].
    + apply bool_decide_eq_false in E'.
      rewrite bool_decide_eq_false_2; [done | set_solver].
Qed.

Lemma counter_add_positive counter x :
  Forall (fun kn => 1 <= kn.2) counter ->
  Forall (fun kn => 1 <= kn.2) (counter_add counter x).
Proof.
  induction 1 as [|[k n] counter Hn Hrest IH]; simpl.
  - constructor; [simpl; lia | constructor].
  - destruct (bool_decide (k = x)); constructor; simpl in *; try done; lia.
Qed.

Lemma occurrences_snoc k l x :
  occurrences k (l ++ [x])
  = occurrences k l + (if bool_decide (x = k) then 1 else 0).
Proof.
  unfold occurrences, len. rewrite List.filter_app, length_app. simpl.
  destruct (bool_decide (x = k)); simpl; lia.
Qed.

Lemma occurrences_positive k l : 1 <= occurrences k l <-> k ∈ l.
Proof.
  unfold occurrences, len. induction l as [|y l IH]; simpl.
  - split; [lia | by intros ?%elem_of_nil].
  - rewrite elem_of_cons. destruct (bool_decide (y = k)) eqn:E.
    + apply bool_decide_eq_true in E as ->. simpl. split; [auto | lia].
    + apply bool_decide_eq_false in E. rewrite IH. naive_solver.
Qed.

Lemma counts_of_add counter l x :
  counts_of counter l -> counts_of (counter_add counter x) (l ++ [x]).
Proof.
  intros (Hnd & Hpos & Hkeys & Hget). split; [|split; [|split]].
  - rewrite counter_add_keys. case_bool_decide; [done|].
    apply NoDup_app. split; [done|]. split; [set_solver | apply NoDup_singleton].
  - by apply counter_add_positive.
  - intros k. rewrite counter_add_keys, elem_of_app, list_elem_of_singleton.
    case_bool_decide; [|rewrite elem_of_app, list_elem_of_singleton];
      set_solver.
  - intros k. by rewrite counter_get_add, occurrences_snoc, Hget.
Qed.

Lemma Counter_counts l : counts_of (Counter l) l.
Proof.
  unfold Counter.
  assert (forall xs counter pre,
             counts_of counter pre ->
             counts_of (foldl counter_add counter xs) (pre ++ xs)) as Hgen.
  { induction xs as [|x xs IH]; intros counter pre H; simpl.
    - by rewrite app_nil_r.
    - replace (pre ++ x :: xs) with ((pre ++ [x]) ++ xs)
        by (by rewrite <- app_assoc).
      apply IH. by apply counts_of_add. }
  apply (Hgen l [] []). split; [constructor|]. split; [constructor|].
  split; [set_solver|]. done.
Qed.

Lemma counter_get_elem counter k n :
  NoDup counter.*1 -> (k, n) ∈ counter -> counter_get counter k = n.
Proof.
  induction counter as [|[k' n'] counter IH]; intros Hnd Hin;
    [by apply elem_of_nil in Hin|].
  rewrite fmap_cons in Hnd. apply NoDup_cons in Hnd as [Hnotin Hnd].
  apply elem_of_cons in Hin as [[= <- <-]|Hin]; simpl.
  - by rewrite bool_decide_eq_true_2.
  - rewrite bool_decide_eq_false_2; [by apply IH|].
    intros ->. apply Hnotin. by apply (list_elem_of_fmap_2 fst) in Hin.
Qed.

Lemma insert_by_count_perm x l : insert_by_count x l ≡ₚ x :: l.
Proof.
  induction l as [|y l IH]; [done|]. simpl.
  destruct (x.2 <? y.2); [|done]. rewrite IH. apply Permutation_swap.
Qed.

Lemma insert_by_count_sorted x l :
  by_falling_count l -> by_falling_count (insert_by_count x l).
Proof.
  unfold by_falling_count. induction 1 as [|y l Hl IH Hy]; simpl.
  - repeat constructor.
  - destruct (x.2 <? y.2) eqn:E.
    + apply Z.ltb_lt in E. constructor; [done|].
      rewrite insert_by_count_perm. constructor; [lia | done].
    + apply Z.ltb_ge in E. constructor; [by constructor|].
      constructor; [done|]. eapply Forall_impl; [exact Hy|].
      intros z Hz. simpl in Hz. lia.
Qed.

Lemma most_common_perm counter : most_common counter ≡ₚ counter.
Proof.
  induction counter as [|x counter IH]; [done|]. simpl.
  by rewrite insert_by_count_perm, IH.
Qed.

Lemma most_common_sorted counter : by_falling_count (most_common counter).
Proof.
  induction counter as [|x counter IH]; [constructor|]. simpl.
  by apply insert_by_count_sorted.
Qed.

Lemma filter_sublist {A} (p : A -> bool) (l : list A) :
  sublist (List.filter p l) l.
Proof.
  induction l as [|x l IH]; [done|]. simpl.
  destruct (p x); by constructor.
Qed.

Lemma sublist_sorted (l1 l2 : list (pystr * Z)) :
  sublist l1 l2 -> by_falling_count l2 -> by_falling_count l1.
Proof.
  unfold by_falling_count. induction 1 as [|x l1 l2 Hsub IH|x l1 l2 Hsub IH];
    intros Hs; [done| |].
  - apply StronglySorted_inv in Hs as [Hs Hx]. constructor; [by apply IH|].
    apply Forall_forall. intros y Hy.
    apply (proj1 (Forall_forall _ _) Hx). by eapply elem_of_sublist.
  - apply StronglySorted_inv in Hs as [Hs _]. by apply IH.
Qed.

Lemma slice_to_prefix {A} (n : Z) (l : list A) :
  exists m, slice_to n l = take m l /\ (0 <= n -> m = Z.to_nat n).
Proof.
  unfold slice_to. destruct (0 <=? n) eqn:E.
  - eauto.
  - apply Z.leb_gt in E. eexists. split; [done|]. lia.
Qed.

(* ================================================================= *)
(** ** The keywords of a run *)

Lemma fst_sublist (l1 l2 : list (pystr * Z)) :
  sublist l1 l2 -> sublist l1.*1 l2.*1.
Proof.
  induction 1; rewrite ?fmap_cons; by constructor.
Qed.

Section Keywords.
Context {K : KeywordRuntime}.

Lemma _is_valid_token_countable form tag :
  _is_valid_token form tag = true -> tag ∈ _TARGET_TAGS /\ countable form.
Proof.
  unfold _is_valid_token, countable.
  destruct (bool_decide (tag ∉ _TARGET_TAGS)) eqn:E1; [done|].
  destruct (len form <? MIN_KEYWORD_LEN) eqn:E2; [done|].
  destruct (bool_decide (form ∈ STOPWORDS)) eqn:E3; [done|].
  destruct (isdigit form) eqn:E4; [done|].
  destruct ((len form =? 1) && isalpha form) eqn:E5; [done|]. intros _.
  apply bool_decide_eq_false, dec_stable in E1.
  apply Z.ltb_ge in E2. apply bool_decide_eq_false in E3.
  split; [done|]. split; [done|]. split; [done|]. split; [done|].
  intros Hone. apply andb_false_iff in E5 as [E5|E5]; [|done].
  apply Z.eqb_neq in E5. done.
Qed.

Lemma extract_nouns_countable text nouns :
  (extract_nouns text).1 = Ret nouns -> Forall countable nouns.
Proof.
  unfold extract_nouns. destruct (bool_decide (text = [])).
  - intros [= <-]. constructor.
  - destruct (kiwi_tokenize text) as [tokens|e].
    + intros [= <-]. apply Forall_forall. intros noun Hn.
      apply list_elem_of_fmap in Hn as (t & -> & Ht).
      apply list_elem_of_In, filter_In in Ht as [_ Ht].
      by apply _is_valid_token_countable in Ht as [_ ?].
    + destruct (is_Exception e); [|done]. intros [= <-]. constructor.
Qed.

Lemma gather_nouns_countable articles :
  forall all_nouns out,
    Forall countable all_nouns ->
    (gather_nouns articles all_nouns).1 = Ret out ->
    Forall countable out.
Proof.
  induction articles as [|article rest IH]; intros all_nouns out Hall;
    cbn [gather_nouns].
  - by intros [= <-].
  - destruct (extract_nouns _) as [[nouns|e] logs] eqn:E; [|done].
    destruct (gather_nouns rest (all_nouns ++ nouns)) as [r logs'] eqn:E'.
    simpl. intros ->. apply (IH (all_nouns ++ nouns)); [|by rewrite E'].
    apply Forall_app. split; [done|].
    eapply extract_nouns_countable. by rewrite E.
Qed.

(** X11. What [extract_top_keywords] returns, in terms of the nouns
    gathered from the articles: the keywords are pairwise distinct, each comes
    with the number of its occurrences among the nouns, which is at least
    [min_freq] and at least one, the counts never increase along the list,
    and for a [top_n] that is not negative there are at most [top_n]
    entries.  Every keyword passed the tests of [_is_valid_token]: it is not
    a stop word, not shorter than MIN_KEYWORD_LEN, not a number and not a
    single letter. *)
Theorem extract_top_keywords_ranked (articles : list Article)
    (top_n min_freq : Z) (kws : list (pystr * Z)) :
  (extract_top_keywords articles top_n min_freq).1 = Ret kws ->
  exists all_nouns,
    (gather_nouns articles []).1 = Ret all_nouns
    /\ NoDup kws.*1
    /\ by_falling_count kws
    /\ Forall (fun kf => kf.2 = occurrences kf.1 all_nouns
                         /\ min_freq <= kf.2 /\ 1 <= kf.2
                         /\ countable kf.1) kws
    /\ (0 <= top_n -> len kws <= top_n).
Proof.
  unfold extract_top_keywords.
  destruct (gather_nouns articles []) as [[all_nouns|e] logs] eqn:E; [|done].
  simpl. intros [= <-]. exists all_nouns. split; [done|].
  destruct (Counter_counts all_nouns) as (Hnd & Hpos & Hkeys & Hget).
  set (filtered := List.filter (fun kf => kf.2 >=? min_freq)
                               (most_common (Counter all_nouns))).
  destruct (slice_to_prefix top_n filtered) as (m & -> & Hm).
  assert (sublist (take m filtered) (most_common (Counter all_nouns))) as Hsub.
  { etrans; [apply sublist_take | apply filter_sublist]. }
  assert (Forall countable all_nouns) as Hcount.
  { apply (gather_nouns_countable articles [] all_nouns); [constructor|].
    by rewrite E. }
  split; [|split; [|split]].
  - eapply sublist_NoDup; [|exact (fst_sublist _ _ Hsub)].
    by rewrite (most_common_perm (Counter all_nouns)).
  - eapply sublist_sorted; [exact Hsub | apply most_common_sorted].
  - apply Forall_forall. intros [k n] Hin. cbn [fst snd].
    assert ((k, n) ∈ filtered) as Hf by (by eapply elem_of_sublist, sublist_take).
    apply list_elem_of_In, filter_In in Hf as [Hmc Hp].
    apply list_elem_of_In in Hmc. rewrite most_common_perm in Hmc.
    simpl in Hp. rewrite Z.geb_leb in Hp. apply Z.leb_le in Hp.
    assert (k ∈ all_nouns) as Hk.
    { apply Hkeys. by apply (list_elem_of_fmap_2 fst) in Hmc. }
    split; [by rewrite <- Hget, (counter_get_elem _ _ _ Hnd Hmc)|].
    split; [done|]. split.
    + by apply (proj1 (Forall_forall _ _) Hpos _ Hmc).
    + by apply (proj1 (Forall_forall _ _) Hcount).
  - intros Hn. unfold len. rewrite length_take, (Hm Hn). lia.
Qed.

(** X12. No keyword is passed over for a weaker one.  For a [top_n] that is
    not negative, a noun that occurs at least [min_freq] times and is not
    among the returned keywords was cut off by [top_n]: the list is full and
    each of its keywords occurs at least as often as that noun. *)
Theorem extract_top_keywords_complete (articles : list Article)
    (top_n min_freq : Z) (kws : list (pystr * Z)) (all_nouns : list pystr)
    (noun : pystr) :
  (extract_top_keywords articles top_n min_freq).1 = Ret kws ->
  (gather_nouns articles []).1 = Ret all_nouns ->
  0 <= top_n ->
  noun ∈ all_nouns ->
  min_freq <= occurrences noun all_nouns ->
  noun ∉ kws.*1 ->
  len kws = top_n
  /\ Forall (fun kf => occurrences noun all_nouns <= kf.2) kws.
Proof.
  unfold extract_top_keywords.
  destruct (gather_nouns articles []) as [[nouns|e] logs] eqn:E; [|done].
  simpl. intros [= <-] [= ->] Hn Hin Hfreq Hout.
  destruct (Counter_counts all_nouns) as (Hnd & Hpos & Hkeys & Hget).
  set (filtered := List.filter (fun kf => kf.2 >=? min_freq)
                               (most_common (Counter all_nouns))) in *.
  unfold slice_to in *. rewrite (proj2 (Z.leb_le 0 top_n) Hn) in *.
  assert (exists n, (noun, n) ∈ Counter all_nouns) as [n Hmem].
  { apply Hkeys, list_elem_of_fmap in Hin as ([k n] & -> & Hmem). eauto. }
  assert (n = occurrences noun all_nouns) as Hn'.
  { by rewrite <- Hget, (counter_get_elem _ _ _ Hnd Hmem). }
  assert ((noun, n) ∈ filtered) as Hf.
  { apply list_elem_of_In, filter_In. split.
    - apply list_elem_of_In. by rewrite most_common_perm.
    - simpl. rewrite Z.geb_leb. apply Z.leb_le. lia. }
  rewrite <- (take_drop (Z.to_nat top_n) filtered) in Hf.
  apply elem_of_app in Hf as [Hf|Hf].
  { destruct Hout. by apply (list_elem_of_fmap_2 fst) in Hf. }
  assert (by_falling_count (take (Z.to_nat top_n) filtered
                            ++ drop (Z.to_nat top_n) filtered)) as Hs.
  { rewrite take_drop. eapply sublist_sorted;
      [apply filter_sublist | apply most_common_sorted]. }
  split.
  - unfold len. rewrite length_take.
    assert (Z.to_nat top_n < length filtered)%nat; [|lia].
    destruct (decide (Z.to_nat top_n < length filtered)%nat); [done|].
    rewrite drop_ge in Hf by lia. by apply elem_of_nil in Hf.
  - apply Forall_forall. intros kf Hkf. rewrite <- Hn'.
    apply (StronglySorted_app_1_elem_of _ _ _ kf (noun, n) Hs Hkf Hf).
Qed.

(** X13. A failing analysis costs one article, not the run.  When the
    analyser raises only [Exception]s, [extract_top_keywords] returns a list
    for every input; the nouns it counts are those of the articles in order,
    an article whose analysis raised adding none; and without articles the
    list is empty. *)
Theorem extract_top_keywords_total (articles : list Article)
    (top_n min_freq : Z) :
  (forall text e, kiwi_tokenize text = Raise e -> is_Exception e = true) ->
  (gather_nouns articles []).1 = Ret (concat (nouns_of <$> articles))
  /\ (exists kws, (extract_top_keywords articles top_n min_freq).1 = Ret kws)
  /\ (extract_top_keywords [] top_n min_freq).1 = Ret [].
Proof.
  intros Hexn.
  assert (forall arts acc,
             (gather_nouns arts acc).1 = Ret (acc ++ concat (nouns_of <$> arts)))
    as Hgather.
  { induction arts as [|article rest IH]; intros acc; cbn [gather_nouns].
    - simpl. by rewrite app_nil_r.
    - rewrite fmap_cons. cbn [concat]. unfold nouns_of at 1.
      destruct (extract_nouns _) as [[nouns|e] logs] eqn:E.
      + specialize (IH (acc ++ nouns)).
        destruct (gather_nouns rest (acc ++ nouns)) as [r logs'].
        simpl in *. by rewrite IH, <- app_assoc.
      + exfalso. unfold extract_nouns in E.
        destruct (bool_decide _); [done|].
        destruct (kiwi_tokenize _) as [tokens|e'] eqn:Et; [done|].
        rewrite (Hexn _ _ Et) in E. done. }
  split; [apply (Hgather articles [])|]. split.
  - unfold extract_top_keywords. specialize (Hgather articles []).
    destruct (gather_nouns articles []) as [[all_nouns|e] logs]; [|done].
    simpl. eauto.
  - unfold extract_top_keywords, slice_to. cbn [gather_nouns fst].
    unfold Counter, most_common. cbn [foldl foldr List.filter].
    destruct (0 <=? top_n); by rewrite take_nil.
Qed.

End Keywords.

(* ================================================================= *)
(** ** Examples on the concrete runtime *)

(** With three attempts allowed: a connection error and a 503 are followed by
    the page after sleeps of 2 and 4 seconds; when nothing gets through, the
    result is [None] after the same two sleeps. *)
Lemma _get_retry_backoff_witness :
  (@_get (Demo.runtime 3 10 3) (lit "u") (Demo.start Demo.flaky_world)).1
  = Ret (Some (mkResponse 200 Demo.legacy_html))
  /\ sleeps (trace (@_get (Demo.runtime 3 10 3) (lit "u")
                      (Demo.start Demo.flaky_world)).2)
     = [inject_Z 2; inject_Z 4]
  /\ (@_get (Demo.runtime 3 10 3) (lit "u") (Demo.start Demo.down_world)).1
     = Ret None
  /\ sleeps (trace (@_get (Demo.runtime 3 10 3) (lit "u")
                      (Demo.start Demo.down_world)).2)
     = [inject_Z 2; inject_Z 4].
Proof.
  destruct (proj1 (@_get_retry_backoff (Demo.runtime 3 10 3) (lit "u")
                     (Demo.start Demo.flaky_world))
              3 (mkResponse 200 Demo.legacy_html)) as [Hrun Hsleeps].
  { simpl. lia. }
  { intros k Hk. assert (k = 1 \/ k = 2) as [-> | ->] by lia; reflexivity. }
  { reflexivity. }
  { reflexivity. }
  destruct (proj2 (@_get_retry_backoff (Demo.runtime 3 10 3) (lit "u")
                     (Demo.start Demo.down_world))) as [Hrun' Hsleeps'].
  { intros k Hk. reflexivity. }
  rewrite Hrun, Hrun'. cbn [fst snd advance trace Demo.start app].
  rewrite Hsleeps, Hsleeps'. repeat split; reflexivity.
Defined.

(** The two titles of the specification's example collapse to the
    page-source record. *)
Lemma dedup_keeps_first_occurrences_witness :
  @dedup (Demo.runtime 3 10 3) ([Demo.news_page] ++ [Demo.news_feed])
  = [Demo.news_page].
Proof.
  rewrite (proj1 (@dedup_keeps_first_occurrences (Demo.runtime 3 10 3)
                    [Demo.news_page] [Demo.news_feed])).
  reflexivity.
Defined.

(** One query, with at most three articles per query, against a provider that
    answers every request with the two-item page and every feed with one
    entry. *)
Lemma collect_all_news_invariants_witness :
  Forall (fun a => strip (title a) <> []
                   /\ (source a = s_naver \/ source a = s_google))
    [Demo.page_article "flu" "Flu wave grows" "http://n/1";
     Demo.page_article "flu" "Measles alert issued" "http://n/2";
     Demo.feed_article "flu" "Flu season hits hard"]
  /\ NoDup (@dedup_key (Demo.runtime 3 3 5) <$>
      [Demo.page_article "flu" "Flu wave grows" "http://n/1";
       Demo.page_article "flu" "Measles alert issued" "http://n/2";
       Demo.feed_article "flu" "Flu season hits hard"]).
Proof.
  apply (@collect_all_news_invariants (Demo.runtime 3 3 5) [lit "flu"]
           (Demo.start (Demo.steady_world (fun _ => (1 # 2)%Q)))).
  vm_compute. reflexivity.
Defined.



Lemma down_world_failures : failures_only Demo.down_world.
Proof.
  split; intros k e H; simpl in H; injection H as <-; reflexivity.
Qed.

Lemma feed_only_world_failures : failures_only Demo.feed_only_world.
Proof.
  split; intros k e H; simpl in H.
  - injection H as <-. reflexivity.
  - destruct k; [injection H as <-; reflexivity | discriminate H].
Qed.

(** When no request gets through and no feed parses, the run ends with
    [sys.exit(1)]; when the feed of the second query parses, the failures of
    the first query and of the page source do not stop the run. *)
Lemma hard_stop_iff_no_articles_witness :
  (@main_collect (Demo.runtime 3 10 3) (Demo.start Demo.down_world)).1
  = Raise (SystemExit 1)
  /\ (@main_collect (Demo.runtime 3 10 3) (Demo.start Demo.feed_only_world)).1
     = Ret [Demo.feed_article "measles" "Flu season hits hard"].
Proof.
  split.
  - destruct (@hard_stop_iff_no_articles (Demo.runtime 3 10 3)
                (Demo.start Demo.down_world) down_world_failures)
      as (_ & out & st' & Hrun & Hiff & _).
    apply Hiff. apply (f_equal fst) in Hrun. vm_compute in Hrun.
    by injection Hrun as <-.
  - destruct (@hard_stop_iff_no_articles (Demo.runtime 3 10 3)
                (Demo.start Demo.feed_only_world) feed_only_world_failures)
      as (_ & out & st' & Hrun & _ & Hgo).
    apply (f_equal fst) in Hrun. vm_compute in Hrun.
    injection Hrun as <-. by apply Hgo.
Defined.

(** An empty first page, and a fetch that fails three times, each end the
    loop over three pages at the first page. *)
Lemma pagination_stops_witness :
  @naver_pages (Demo.runtime 3 10 3) (lit "flu") Demo.today (range 0 3)
    ([], 0) (Demo.start Demo.empty_page_world)
  = (Ret ([], 0),
     advance (@_get (Demo.runtime 3 10 3)
                (@NAVER_NEWS_URL (Demo.runtime 3 10 3) (lit "flu") 1)
                (Demo.start Demo.empty_page_world)).2
       0 [EvLog DEBUG (NaverNoResult (lit "flu") 1)])
  /\ @naver_pages (Demo.runtime 3 10 3) (lit "flu") Demo.today (range 0 3)
       ([], 0) (Demo.start Demo.down_world)
     = (Ret ([], 0),
        advance (@_get (Demo.runtime 3 10 3)
                   (@NAVER_NEWS_URL (Demo.runtime 3 10 3) (lit "flu") 1)
                   (Demo.start Demo.down_world)).2
          0 [EvLog WARNING (NaverNoResponse (lit "flu") 1)]).
Proof.
  split.
  - apply (proj2 (@pagination_stops (Demo.runtime 3 10 3) (lit "flu")
                    Demo.today 0 ([], 0) (Demo.start Demo.empty_page_world)
                    ltac:(simpl; lia))
             (mkResponse 200 [])).
    + apply injective_projections; [vm_compute; reflexivity | reflexivity].
    + reflexivity.
  - apply (proj1 (@pagination_stops (Demo.runtime 3 10 3) (lit "flu")
                    Demo.today 0 ([], 0) (Demo.start Demo.down_world)
                    ltac:(simpl; lia))).
    apply injective_projections; [vm_compute; reflexivity | reflexivity].
Defined.

Lemma steady_worlds_same_inputs :
  same_inputs (Demo.start (Demo.steady_world (fun _ => 0%Q)))
              (Demo.start (Demo.steady_world (fun _ => (1 # 2)%Q))).
Proof. repeat split. Qed.

(** Two runs against the same provider, one drawing 0 and one drawing 1/2
    every time, sleep differently and return the same records. *)
Lemma delays_do_not_change_output_witness :
  (@collect_all_news (Demo.runtime 3 3 5) [lit "flu"]
     (Demo.start (Demo.steady_world (fun _ => 0%Q)))).1
  = (@collect_all_news (Demo.runtime 3 3 5) [lit "flu"]
       (Demo.start (Demo.steady_world (fun _ => (1 # 2)%Q)))).1
  /\ sleeps (trace (@collect_all_news (Demo.runtime 3 3 5) [lit "flu"]
                      (Demo.start (Demo.steady_world (fun _ => 0%Q)))).2)
     <> sleeps (trace (@collect_all_news (Demo.runtime 3 3 5) [lit "flu"]
                         (Demo.start
                            (Demo.steady_world (fun _ => (1 # 2)%Q)))).2).
Proof.
  split.
  - apply (@delays_do_not_change_output (Demo.runtime 3 3 5) [lit "flu"]).
    exact steady_worlds_same_inputs.
  - vm_compute. discriminate.
Defined.

(** C1, at a failing input.  With at most three articles per query and a
    provider whose result pages have two items each, the loop over the pages
    of one query keeps the two items of the first page and the two of the
    second: four items, and a count of four, for a cap of three.  The feed
    collector on the same cap keeps at most three entries of a feed. *)
Theorem per_query_cap_exceeded :
  (@naver_query (Demo.runtime 3 3 5) Demo.today (lit "flu") []
     (Demo.start Demo.paged_world)).1
  = Ret ([Demo.page_article "flu" "Flu wave grows" "http://n/1";
          Demo.page_article "flu" "Measles alert issued" "http://n/2";
          Demo.page_article "flu" "Norovirus cases climb" "http://n/3";
          Demo.page_article "flu" "Heat wave warning" "http://n/4"], 4)
  /\ @MAX_ARTICLES_PER_QUERY (Demo.runtime 3 3 5) = 3
  /\ (@google_entries (Demo.runtime 3 3 5) Demo.today (lit "flu")
        [Demo.entry_flu; Demo.entry_flu; Demo.entry_flu; Demo.entry_flu]
        0 []).2 = 3.
Proof. split; [vm_compute; reflexivity | split; reflexivity]. Qed.

(* ================================================================= *)
(** ** Further examples *)

(** With at most three articles per query, a feed of four entries gives
    three records, and a feed of two entries gives both. *)
Lemma google_entries_cap_witness :
  @google_entries (Demo.runtime 3 3 5) Demo.today (lit "flu")
    [Demo.entry_flu; Demo.entry_spaced; Demo.entry_flu; Demo.entry_flu] 0 []
  = ([Demo.feed_article "flu" "Flu season hits hard";
      Demo.feed_article "flu" "Flu ";
      Demo.feed_article "flu" "Flu season hits hard"], 3)
  /\ take (Z.to_nat (@MAX_ARTICLES_PER_QUERY (Demo.runtime 3 3 5)))
          [Demo.entry_flu; Demo.entry_spaced]
     = [Demo.entry_flu; Demo.entry_spaced].
Proof.
  split.
  - rewrite (proj1 (@google_entries_cap (Demo.runtime 3 3 5) Demo.today
                      (lit "flu")
                      [Demo.entry_flu; Demo.entry_spaced; Demo.entry_flu;
                       Demo.entry_flu] [])).
    reflexivity.
  - apply (proj2 (proj2 (@google_entries_cap (Demo.runtime 3 3 5) Demo.today
                           (lit "flu") [Demo.entry_flu; Demo.entry_spaced]
                           []))).
    vm_compute. discriminate.
Defined.

(** The feed of the first query does not parse, the feed of the second has
    one entry: the records are those of the second query, after two feed
    requests and two delays. *)
Lemma collect_google_news_by_query_witness :
  (@collect_google_news (Demo.runtime 3 10 3) [lit "flu"; lit "measles"]
     (Demo.start Demo.feed_only_world)).1
  = Ret [Demo.feed_article "measles" "Flu season hits hard"]
  /\ n_feed (@collect_google_news (Demo.runtime 3 10 3)
               [lit "flu"; lit "measles"]
               (Demo.start Demo.feed_only_world)).2 = 2%nat
  /\ n_random (@collect_google_news (Demo.runtime 3 10 3)
                 [lit "flu"; lit "measles"]
                 (Demo.start Demo.feed_only_world)).2 = 2%nat.
Proof.
  pose proof (@collect_google_news_by_query (Demo.runtime 3 10 3)
                [lit "flu"; lit "measles"]
                (Demo.start Demo.feed_only_world)) as H.
  cbv zeta in H. destruct H as (Hout & Hfeed & Hrandom & _).
  { intros i e Hi. destruct i as [|[|i]]; simpl.
    - intros [= <-]. reflexivity.
    - discriminate.
    - simpl in Hi. lia. }
  rewrite Hout, Hfeed, Hrandom. repeat split; reflexivity.
Defined.

(** Two records with different titles pass deduplication as they are. *)
Lemma dedup_distinct_unchanged_witness :
  @dedup (Demo.runtime 3 10 3)
    [Demo.page_article "flu" "Flu wave grows" "http://n/1";
     Demo.feed_article "flu" "Flu season hits hard"]
  = [Demo.page_article "flu" "Flu wave grows" "http://n/1";
     Demo.feed_article "flu" "Flu season hits hard"].
Proof.
  apply (@dedup_distinct_unchanged (Demo.runtime 3 10 3)).
  - repeat constructor; intros H; vm_compute in H; discriminate H.
  - apply (bool_decide_unpack _). vm_compute. exact I.
Defined.

(** The page with one container of the current layout gives one item with a
    title that passes the filter; the legacy page gives one item for each of
    its two containers. *)
Lemma current_layout_quality_witness :
  (Forall (fun a => 5 <= len (title a) /\ (title a ∉ _UI_TITLES))
          (parse_naver_soup Demo.mixed_doc (lit "flu") Demo.today)
   /\ (length (parse_naver_soup Demo.mixed_doc (lit "flu") Demo.today)
       <= length (select sel_card ([], Demo.mixed_doc)))%nat)
  /\ length (parse_naver_soup Demo.legacy_doc (lit "flu") Demo.today)
     = length (List.filter
                 (fun li => bool_decide (is_Some (select_one sel_news_tit li)))
                 (legacy_containers ([], Demo.legacy_doc))).
Proof.
  split.
  - apply (proj1 (current_layout_quality Demo.mixed_doc (lit "flu")
                    Demo.today)).
    vm_compute. discriminate.
  - apply (proj2 (current_layout_quality Demo.legacy_doc (lit "flu")
                    Demo.today)).
    vm_compute. reflexivity.
Defined.

(** The two records of the page collector for the query "flu". *)
Lemma records_name_their_origin_witness :
  Forall (from_run s_naver [lit "flu"] Demo.today)
    [Demo.page_article "flu" "Flu wave grows" "http://n/1";
     Demo.page_article "flu" "Measles alert issued" "http://n/2"].
Proof.
  apply (proj1 (@records_name_their_origin (Demo.runtime 3 2 5) [lit "flu"]
                  (Demo.start (Demo.steady_world (fun _ => (1 # 2)%Q)))
                  [Demo.page_article "flu" "Flu wave grows" "http://n/1";
                   Demo.page_article "flu" "Measles alert issued"
                     "http://n/2"])).
  vm_compute. reflexivity.
Defined.

(** With a cap of three and pages of two items, the loop keeps four items:
    one less than the cap, and one page. *)
Lemma per_query_overshoot_bounded_witness :
  exists items,
    [Demo.page_article "flu" "Flu wave grows" "http://n/1";
     Demo.page_article "flu" "Measles alert issued" "http://n/2";
     Demo.page_article "flu" "Norovirus cases climb" "http://n/3";
     Demo.page_article "flu" "Heat wave warning" "http://n/4"]
    = [] ++ items
    /\ 4 = len items
    /\ len items
       <= Z.max 0 (@MAX_ARTICLES_PER_QUERY (Demo.runtime 3 3 5) - 1) + 2.
Proof.
  apply (@per_query_overshoot_bounded (Demo.runtime 3 3 5) 2 Demo.today
           (lit "flu") [] _ 4 (Demo.start Demo.paged_world)).
  - lia.
  - intros [|i] resp [= <-]; vm_compute; discriminate.
  - vm_compute. reflexivity.
Defined.

(** The first attempt fails to connect and the second is interrupted: the
    interrupt leaves [_get] after the one backoff sleep of two seconds. *)
Lemma _get_propagates_other_exceptions_witness :
  (@_get (Demo.runtime 3 10 3) (lit "u")
     (Demo.start (Examples.interrupted_world 1))).1
  = Raise KeyboardInterrupt
  /\ sleeps (trace (@_get (Demo.runtime 3 10 3) (lit "u")
                      (Demo.start (Examples.interrupted_world 1))).2)
     = [inject_Z 2].
Proof.
  rewrite (@_get_propagates_other_exceptions (Demo.runtime 3 10 3) (lit "u")
             (Demo.start (Examples.interrupted_world 1)) 2
             KeyboardInterrupt).
  - split; reflexivity.
  - simpl. lia.
  - intros k Hk. assert (k = 1) as -> by lia. reflexivity.
  - reflexivity.
  - reflexivity.
Defined.

(** An interrupt at the first request ends the collection and the entry
    point with it. *)
Lemma first_request_exception_aborts_witness :
  (@collect_all_news (Demo.runtime 3 10 3) [lit "flu"; lit "measles"]
     (Demo.start (Examples.interrupted_world 0))).1
  = Raise KeyboardInterrupt
  /\ (@main_collect (Demo.runtime 3 10 3)
        (Demo.start (Examples.interrupted_world 0))).1
     = Raise KeyboardInterrupt.
Proof.
  destruct (@first_request_exception_aborts (Demo.runtime 3 10 3) (lit "flu")
              [lit "measles"] (Demo.start (Examples.interrupted_world 0))
              KeyboardInterrupt) as [Hall Hmain].
  - simpl. lia.
  - simpl. lia.
  - reflexivity.
  - reflexivity.
  - split; [exact Hall|]. apply Hmain. discriminate.
Defined.

(** The three strongest keywords of the five headlines. *)
Lemma extract_top_keywords_ranked_witness :
  exists all_nouns,
    (@gather_nouns Examples.keyword_runtime Examples.headlines []).1
    = Ret all_nouns
    /\ NoDup [(lit "Flu", 2); (lit "wave", 2); (lit "grows", 1)].*1
    /\ by_falling_count [(lit "Flu", 2); (lit "wave", 2); (lit "grows", 1)]
    /\ Forall (fun kf => kf.2 = occurrences kf.1 all_nouns
                         /\ 1 <= kf.2 /\ 1 <= kf.2
                         /\ @countable Examples.keyword_runtime kf.1)
              [(lit "Flu", 2); (lit "wave", 2); (lit "grows", 1)]
    /\ (0 <= 3 ->
        len [(lit "Flu", 2); (lit "wave", 2); (lit "grows", 1)] <= 3).
Proof.
  apply (@extract_top_keywords_ranked Examples.keyword_runtime
           Examples.headlines 3 1).
  vm_compute. reflexivity.
Defined.

(** With room for one keyword, "wave" is left out although it occurs twice:
    the keyword returned occurs twice as well. *)
Lemma extract_top_keywords_complete_witness :
  len [(lit "Flu", 2)] = 1
  /\ Forall (fun kf =>
               occurrences (lit "wave")
                 (lit <$> ["Flu"; "wave"; "grows"; "Norovirus"; "climb";
                           "Heat"; "wave"; "warning"; "Flu"; "season"; "hits";
                           "hard"; "Cases"; "rise"]%string)
               <= kf.2)
            [(lit "Flu", 2)].
Proof.
  apply (@extract_top_keywords_complete Examples.keyword_runtime
           Examples.headlines 1 1).
  - vm_compute. reflexivity.
  - vm_compute. reflexivity.
  - lia.
  - apply (bool_decide_unpack _). vm_compute. exact I.
  - vm_compute. discriminate.
  - intros H. apply (bool_decide_pack _) in H. vm_compute in H. exact H.
Defined.

Lemma tokenize_raises_Exception (text : pystr) (e : exn) :
  @kiwi_tokenize Examples.keyword_runtime text = Raise e ->
  is_Exception e = true.
Proof.
  cbn [kiwi_tokenize Examples.keyword_runtime]. unfold Examples.tokenize.
  destruct (contains _ text); [|done]. by intros [= <-].
Qed.

(** The analysis of the second headline fails; the nouns are those of the
    other four. *)
Lemma extract_top_keywords_total_witness :
  (@gather_nouns Examples.keyword_runtime Examples.headlines []).1
  = Ret (lit <$> ["Flu"; "wave"; "grows"; "Norovirus"; "climb"; "Heat";
                  "wave"; "warning"; "Flu"; "season"; "hits"; "hard";
                  "Cases"; "rise"]%string)
  /\ @nouns_of Examples.keyword_runtime
       (Demo.page_article "flu" "Measles alert issued" "http://n/2") = [].
Proof.
  destruct (@extract_top_keywords_total Examples.keyword_runtime
              Examples.headlines 10 1 tokenize_raises_Exception)
    as (Hgather & _ & _).
  rewrite Hgather. split; reflexivity.
Defined.

(** The item of the page with one container of the current layout: its link
    is on the news host and its date is the label "3시간 전". *)
Lemma current_layout_link_and_date_witness :
  contains s_articleView (lit "https://n.news.naver.com/article/1")
  || contains s_n_news (lit "https://n.news.naver.com/article/1") = true
  /\ ([51; 49884; 44036; 32; 51204]%N = Demo.today
      \/ exists k, k ∈ _time_keywords
                   /\ contains k [51; 49884; 44036; 32; 51204]%N = true).
Proof.
  apply (current_layout_link_and_date Demo.mixed_doc (lit "flu") Demo.today
           (mkArticle Demo.today s_naver (lit "flu")
              (lit "Vaccine drive starts") (lit "Clinics open on Monday")
              (lit "https://n.news.naver.com/article/1")
              [51; 49884; 44036; 32; 51204]%N)).
  - vm_compute. discriminate.
  - vm_compute. left.
Defined.
